(** * rdplines: polyline simplification, serial and chunk-parallel

    A shallow embedding of [src/rdplines.py] and the properties its
    specification states about it.

    Conventions of the embedding:
    - a point is a pair of IEEE-754 binary64 numbers, the rows of the
      [float64] array the script builds with [np.column_stack]; arithmetic is
      the kernel's primitive binary64 arithmetic, so division by zero yields
      an infinity or a NaN and raises nothing, as for [np.float64] scalars;
    - a polyline is a [list] of points, in order;
    - a Python call either returns, raises, or waits for ever: the type [py];
    - a [ThreadPoolExecutor] is an explicit state, threaded through the calls
      that use it; the order in which its workers finish tasks is an explicit
      schedule. *)

From Stdlib Require Import ZArith Uint63 Floats Ascii.
From stdpp Require Import base option list strings gmap.

#[local] Set Warnings "-inexact-float".

(** ** Outcomes of a Python call *)

Inductive exn : Type :=
  | IndexError
  | ValueError
  | DegenerateSegment.

Inductive py (A : Type) : Type :=
  | Return (a : A)
  | Raise (e : exn)
  | Blocked.

Arguments Return {A} a.
Arguments Raise {A} e.
Arguments Blocked {A}.

Definition bind {A B} (m : py A) (f : A → py B) : py B :=
  match m with
  | Return a => f a
  | Raise e => Raise e
  | Blocked => Blocked
  end.

Declare Scope py_scope.
Delimit Scope py_scope with py.
Notation "'let*' x ':=' m 'in' k" := (bind m (λ x, k))
  (at level 10, x name, m at level 100, k at level 200,
   only parsing) : py_scope.
Notation "'let*' ' p ':=' m 'in' k" := (bind m (λ p, k))
  (at level 10, p strict pattern, m at level 100, k at level 200,
   only parsing) : py_scope.
Open Scope py_scope.

(** ** Points and sequences *)

Definition Point : Type := float * float.

(** [seq[i]] for a Python [int] index: negative indices count from the end,
    anything outside [-len, len) raises [IndexError]. *)
Definition getitem {A} (l : list A) (i : Z) : py A :=
  let n := Z.of_nat (length l) in
  let j := (if i <? 0 then n + i else i)%Z in
  if (j <? 0)%Z then Raise IndexError
  else match l !! Z.to_nat j with
       | Some x => Return x
       | None => Raise IndexError
       end.

(** [range(0, stop, step)] for [stop >= 0]: a zero step raises [ValueError],
    a negative one gives the empty range. *)
Definition py_range (stop step : Z) : py (list nat) :=
  if (step =? 0)%Z then Raise ValueError
  else if (step <? 0)%Z then Return []
  else Return ((λ j, j * Z.to_nat step) <$>
                 seq 0 (Z.to_nat ((stop + step - 1) / step))).

(** [l[i:j]] for [0 <= i <= j]. *)
Definition slice {A} (l : list A) (i j : nat) : list A :=
  take (j - i) (drop i l).

(** The list comprehension shared by [rdp_threadpool] and
    [parallel_rdp_algorithm]:
    [[points[i:i+chunk_size] for i in range(0, len(points), chunk_size)]]. *)
Definition chunks {A} (points : list A) (chunk_size : Z) : py (list (list A)) :=
  let* idx := py_range (Z.of_nat (length points)) chunk_size in
  Return ((λ i, slice points i (i + Z.to_nat chunk_size)) <$> idx).

(** ** Chunk planner *)

Definition find_optimal_chunk_size {A} (data : list A) : Z :=
  let len_data := Z.of_nat (length data) in
  if (len_data <=? 100)%Z then 1%Z
  else if (len_data <=? 1000)%Z then 4%Z
  else if (len_data <=? 5000)%Z then 8%Z
  else if (len_data <=? 30000)%Z then 16%Z
  else 20%Z.

(** The script's chunking: the planner's value is passed to [rdp_threadpool]
    as its [chunk_size]. *)
Definition script_chunks {A} (points : list A) : py (list (list A)) :=
  chunks points (find_optimal_chunk_size points).

(** ** RDP reducer

    [classic_rdp] delegates to [rdp], imported from the [rdp] package, whose
    code is not part of [src/]. *)

Section Reducer.
Context {P D : Type}.
(** [dist p a b]: distance of [p] to the chord from [a] to [b]. *)
Variable dist : P → P → P → D.
(** [gt d e]: the strict comparison [d > e]. *)
Variable gt : D → D → bool.

(** Modelled from the spec: step 2 of §4.3 of the reducer of the [rdp]
    package (absent from [src/]): the interior point with the largest
    distance to the chord, first occurrence on ties. [best] is the index
    and distance found so far, [i] the index of the head of [mid]. *)
Fixpoint farthest (a b : P) (i : nat) (best : nat * D) (mid : list P)
    : nat * D :=
  match mid with
  | [] => best
  | p :: mid' =>
      let d := dist p a b in
      farthest a b (S i) (if gt d best.2 then (i, d) else best) mid'
  end.

(** Modelled from the spec: the recursion of §4.3 for the reducer of the
    [rdp] package (absent from [src/]). At most two points: returned
    unchanged. Otherwise the farthest interior point [k] is found; if its
    distance exceeds [eps] the sub-polylines [[0..k]] and [[k..end]] are
    reduced and joined without the duplicated point [k], else only the two
    end points remain. [fuel] bounds the recursion depth. *)
Fixpoint rdp_rec (fuel : nat) (pts : list P) (eps : D) : option (list P) :=
  match fuel with
  | 0 => None
  | S fuel' =>
      match pts with
      | a :: p1 :: ((_ :: _) as tl) =>
          let b := List.last tl a in
          let '(k, d) := farthest a b 2 (1, dist p1 a b) (removelast tl) in
          if gt d eps then
            r1 ← rdp_rec fuel' (take (S k) pts) eps;
            r2 ← rdp_rec fuel' (drop k pts) eps;
            Some (removelast r1 ++ r2)
          else Some [a; b]
      | _ => Some pts
      end
  end.

(** Modelled from the spec: [simplify(polyline, epsilon)] of §4.3, the
    [rdp] function of the [rdp] package (absent from [src/]). The
    recursion splits at an interior point, so a depth of [len(pts) + 1]
    is never exhausted ([rdp_rec_enough]). *)
Definition rdp (pts : list P) (eps : D) : list P :=
  default pts (rdp_rec (S (length pts)) pts eps).
End Reducer.

(** Modelled from the spec: the Geometry Kernel of §4.1, which the [rdp]
    package (absent from [src/]) provides: the absolute cross product of
    [segmentEnd - segmentStart] and [point - segmentStart] over the length
    of [segmentEnd - segmentStart]; [DegenerateSegment] when the two end
    points coincide. *)
Definition perpendicularDistance (point segmentStart segmentEnd : Point)
    : py float :=
  let '(x, y) := point in
  let '(sx, sy) := segmentStart in
  let '(ex, ey) := segmentEnd in
  if (sx =? ex)%float && (sy =? ey)%float
  then Raise DegenerateSegment
  else Return (abs ((ex - sx) * (y - sy) - (ey - sy) * (x - sx))
               / sqrt ((ex - sx) * (ex - sx) + (ey - sy) * (ey - sy)))%float.

(** Modelled from the spec: the distance the reducer of the [rdp] package
    (absent from [src/]) compares with epsilon. §4.1 has the caller of
    the kernel handle a chord whose end points coincide; the reducer then
    measures the distance to that single point, so that a closed polyline
    is reduced like any other (§8 promises a result for every polyline of
    two points or more). *)
Definition chord_distance (point segmentStart segmentEnd : Point) : float :=
  match perpendicularDistance point segmentStart segmentEnd with
  | Return d => d
  | _ =>
      let '(x, y) := point in
      let '(sx, sy) := segmentStart in
      sqrt ((x - sx) * (x - sx) + (y - sy) * (y - sy))%float
  end.

(** [d > e] on floats; false when either side is a NaN. *)
Definition float_gt (d e : float) : bool := (e <? d)%float.

Definition classic_rdp (points : list Point) (eps : float) : list Point :=
  let classic_rdp := rdp chord_distance float_gt points eps in
  classic_rdp.

(** ** What the reducer removes

    [removes_only near pts r]: [r] is [pts] without some runs of
    consecutive points; each run lies between two points [a] and [b] that
    stay, next to each other in [r], and all its points are [near] the
    chord from [a] to [b]. *)
Inductive removes_only {P} (near : P → P → P → Prop)
    : list P → list P → Prop :=
  | removes_nothing pts : length pts ≤ 1 → removes_only near pts pts
  | removes_run a mid b rest r :
      (∀ p, p ∈ mid → near p a b) →
      removes_only near (b :: rest) (b :: r) →
      removes_only near (a :: mid ++ b :: rest) (a :: b :: r).

(** Exactly on the chord: at distance 0 from it. *)
Definition collinear (p a b : Point) : Prop :=
  chord_distance p a b = 0%float.

(** No distance of a point of the polyline to a chord between two of its
    points is a NaN. *)
Definition no_nan_distance (points : list Point) : bool :=
  forallb (λ p,
    forallb (λ a,
      forallb (λ b, negb (is_nan (chord_distance p a b))) points)
      points)
    points.

(** ** Thread pools

    The part of [concurrent.futures.ThreadPoolExecutor] the source uses.
    A task of the source is a pure call, so a submitted task is kept as the
    value it evaluates to; what the pool decides is when a task finishes.
    A schedule lists future ids in the order the workers finish them. The
    width of the pool only rules some of these orders out; the model admits
    them all. A task that finishes while later ones are still being
    submitted leaves the same state as one that finishes afterwards, so a
    schedule is run after the submissions. *)

Module Executor.
Record pool (R : Type) : Type := Pool {
  max_workers : Z;
  pending : gmap nat R;     (* submitted, not finished *)
  finished : gmap nat R;    (* the results held by finished futures *)
  next_future : nat
}.
Arguments Pool {R}.
Arguments max_workers {R}.
Arguments pending {R}.
Arguments finished {R}.
Arguments next_future {R}.

(** [ThreadPoolExecutor(max_workers)]. *)
Definition ThreadPoolExecutor {R} (max_workers : Z) : py (pool R) :=
  if (max_workers <=? 0)%Z then Raise ValueError
  else Return (Pool max_workers ∅ ∅ 0).

(** [executor.submit(fn, x, y)], with [r] the value of [fn(x, y)]. *)
Definition submit {R} (ex : pool R) (r : R) : nat * pool R :=
  let fut := next_future ex in
  (fut, Pool (max_workers ex) (<[fut := r]> (pending ex)) (finished ex)
             (S fut)).

(** A worker finishes the task of future [fut]. *)
Definition complete {R} (ex : pool R) (fut : nat) : pool R :=
  match pending ex !! fut with
  | Some r =>
      Pool (max_workers ex) (delete fut (pending ex))
           (<[fut := r]> (finished ex)) (next_future ex)
  | None => ex
  end.

Definition run {R} (ex : pool R) (sched : list nat) : pool R :=
  foldl complete ex sched.

(** [future.result()] returns once the task has finished: whatever the
    schedule did before, by now a worker has finished it. A future the
    pool never issued would be waited for for ever. *)
Definition result {R} (ex : pool R) (fut : nat) : py R * pool R :=
  let ex' := complete ex fut in
  (match finished ex' !! fut with
   | Some r => Return r
   | None => Blocked
   end, ex').

Fixpoint submit_all {R} (ex : pool R) (rs : list R) : list nat * pool R :=
  match rs with
  | [] => ([], ex)
  | r :: rs' =>
      let '(fut, ex1) := submit ex r in
      let '(futs, ex2) := submit_all ex1 rs' in
      (fut :: futs, ex2)
  end.

(** The results of the futures [fs], read one after the other. *)
Fixpoint results {R} (ex : pool R) (fs : list nat) : py (list R) * pool R :=
  match fs with
  | [] => (Return [], ex)
  | fut :: fs' =>
      let '(r, ex1) := result ex fut in
      let '(rs, ex2) := results ex1 fs' in
      (let* x := r in let* xs := rs in Return (x :: xs), ex2)
  end.

(** [list(executor.map(fn, xs, ys))]: one task per pair, submitted in
    order; the results are read future by future, in submission order. *)
Definition map {R A B} (ex : pool R) (sched : list nat)
    (fn : A → B → R) (xs : list A) (ys : list B) : py (list R) * pool R :=
  let '(fs, ex1) := submit_all ex (uncurry fn <$> zip xs ys) in
  let ex2 := run ex1 sched in
  results ex2 fs.

(** Future [fut] holds, or will hold, the value [r]: the invariant of a
    submitted task. *)
Definition holds {R} (ex : pool R) (fut : nat) (r : R) : Prop :=
  pending ex !! fut = Some r ∨
  (pending ex !! fut = None ∧ finished ex !! fut = Some r).
End Executor.

(** The process-wide pool [executor = ThreadPoolExecutor(2)], as created. *)
Definition executor : Executor.pool (list Point) := Executor.Pool 2 ∅ ∅ 0.

Definition parallel_rdp (executor : Executor.pool (list Point))
    (sched : list nat) (points : list Point) (eps : float)
    : py (list Point) * Executor.pool (list Point) :=
  let '(future, executor) := Executor.submit executor (classic_rdp points eps) in
  let executor := Executor.run executor sched in
  let '(result, executor) := Executor.result executor future in
  (result, executor).

(** [np.vstack]: the rows of the arrays, in order; no array at all raises
    [ValueError]. *)
Definition np_vstack {A} (arrays : list (list A)) : py (list A) :=
  match arrays with
  | [] => Raise ValueError
  | _ => Return (concat arrays)
  end.

Definition rdp_threadpool (points : list Point) (epsilon : float)
    (chunk_size : Z) (max_workers : Z) (sched : list nat) : py (list Point) :=
  let* chunks := chunks points chunk_size in
  let* executor := Executor.ThreadPoolExecutor max_workers in
  let* results :=
    (Executor.map executor sched classic_rdp chunks
       (replicate (length chunks) epsilon)).1 in
  np_vstack results.

(** ** Epsilon estimator *)

(** A Python [int] used where a float is expected. *)
Definition float_of_nat (n : nat) : float :=
  PrimFloat.of_uint63 (Uint63.of_Z (Z.of_nat n)).

(** [x ** 0.5] on binary64. The power of either zero is [+0], the power
    of [-inf] is [+inf], and a negative base gives a NaN. Elsewhere the
    correctly rounded square root stands for the power of the C library:
    the two have the same sign, are a NaN or an infinity together, and
    are equal where the root is exact (as for 16); on other arguments
    they can differ in the last bit, so no value is read off this
    definition except at such arguments. *)
Definition pow_half (x : float) : float :=
  if (x =? 0)%float then 0%float
  else if (x =? neg_infinity)%float then infinity
  else sqrt x.

(** The builtin [sum]: [0 + u0 + u1 + ...], from the left. *)
Definition py_sum (U : list float) : float := foldl PrimFloat.add 0%float U.

(** [for i in idx: s = body(i, s)]. *)
Fixpoint py_for {S} (idx : list nat) (body : nat → S → py S) (s : S) : py S :=
  match idx with
  | [] => Return s
  | i :: idx' => let* s' := body i s in py_for idx' body s'
  end.

Definition calculate_epsilon (points : list Point) : py float :=
  let num_points := length points in
  let* '(x1, y1) := getitem points 0 in
  let* '(x2, y2) := getitem points (-1) in
  let* U :=
    py_for (seq 0 num_points)
      (λ i U,
         let* '(xi, yi) := getitem points (Z.of_nat i) in
         let ui := (abs ((y2 - y1) * xi - (x2 - x1) * yi + x2 * y1 - y2 * x1)
                    / pow_half ((y2 - y1) * 2 + (x2 - x1) * 2))%float in
         Return (U ++ [ui]))
      [] in
  let total_ui := py_sum U in
  let time_interval := 0.001%float in
  let epsilon := (total_ui * time_interval / (x2 - x1))%float in
  Return epsilon.

(** The formula of the specification, for a given denominator: the sum over
    all points of the absolute chord deviation over the denominator, times
    the time interval 0.001, over [x2 - x1]. *)
Definition chord_deviation (x1 y1 x2 y2 : float) (q : Point) : float :=
  (abs ((y2 - y1) * q.1 - (x2 - x1) * q.2 + x2 * y1 - y2 * x1))%float.

Definition epsilon_formula (denominator : float) (x1 y1 x2 y2 : float)
    (points : list Point) : float :=
  (py_sum ((λ q, chord_deviation x1 y1 x2 y2 q / denominator) <$> points)
   * 0.001 / (x2 - x1))%float.

(** The denominator of the code: the square root of the sum of the doubled
    coordinate differences. *)
Definition doubled_denominator (x1 y1 x2 y2 : float) : float :=
  pow_half ((y2 - y1) * 2 + (x2 - x1) * 2)%float.

(** The terms squared and doubled, as the specification words it: squared
    first and then doubled, or doubled first and then squared. *)
Definition squared_and_doubled (x1 y1 x2 y2 : float) : float :=
  ((y2 - y1) * (y2 - y1) * 2 + (x2 - x1) * (x2 - x1) * 2)%float.

Definition doubled_and_squared (x1 y1 x2 y2 : float) : float :=
  ((y2 - y1) * 2 * ((y2 - y1) * 2) + (x2 - x1) * 2 * ((x2 - x1) * 2))%float.

(** The denominator of a perpendicular distance, which the comments of
    [calculate_epsilon] announce: the length of the chord, with the terms
    squared. *)
Definition segment_length (x1 y1 x2 y2 : float) : float :=
  sqrt ((y2 - y1) * (y2 - y1) + (x2 - x1) * (x2 - x1))%float.

(** ** Signs of binary64 values

    What the estimator's value can be is read off the specification of the
    primitive operations on [spec_float], the decoded form of a float. *)

(** A NaN, or a value whose sign bit is clear. *)
Definition sf_sign_ok (x : spec_float) : bool :=
  match x with
  | S754_nan => true
  | S754_zero s | S754_infinity s | S754_finite s _ _ => negb s
  end.

(** A NaN or an infinity. *)
Definition sf_nonfinite (x : spec_float) : bool :=
  match x with
  | S754_nan | S754_infinity _ => true
  | _ => false
  end.

Definition never_negative (v : float) : Prop :=
  sf_sign_ok (Prim2SF v) = true.

(** ** Equivalence validator: the statistics and the verdict of the script *)

(** [np.sum] of a one-dimensional array, added in order (numpy adds long
    arrays in blocks, which can differ in the last bits). *)
Definition np_sum (a : list float) : float :=
  match a with
  | [] => 0%float
  | x :: a' => foldl PrimFloat.add x a'
  end.

(** [np.mean] of a one-dimensional array. *)
Definition np_mean (a : list float) : float :=
  (np_sum a / float_of_nat (length a))%float.

(** [np.std(a, ddof=ddof)] of a one-dimensional array: the square root of
    the sum of squared deviations from the mean over [len(a) - ddof]. *)
Definition np_std (a : list float) (ddof : nat) : float :=
  let arrmean := np_mean a in
  let x := (λ v, ((v - arrmean) * (v - arrmean))%float) <$> a in
  sqrt (np_sum x / float_of_nat (length a - ddof)).

(** A two-dimensional array read as one: row after row. *)
Definition flatten (a : list Point) : list float :=
  a ≫= λ '(x, y), [x; y].

Record statistics : Type := Statistics {
  classic_mean : float;
  parallelized_mean : float;
  classic_standard_deviation : float;
  parallelized_standard_deviation : float;
  t_statistic : float;
  p_value : float
}.

Section Validator.
(** [scipy.stats.ttest_ind]: from two samples to a t-statistic and a
    p-value. *)
Variable ttest_ind : list float → list float → float * float.

(** Lines 176-185 of the script. [np.mean(a, axis=0)[1]] is the mean of
    column 1; [np.std(a, ddof=1)] without an axis is taken over the
    flattened array. *)
Definition compute_statistics (classic_points parallelized_points : list Point)
    : statistics :=
  let classic_mean := np_mean (snd <$> classic_points) in
  let parallelized_mean := np_mean (snd <$> parallelized_points) in
  let classic_standard_deviation := np_std (flatten classic_points) 1 in
  let parallelized_standard_deviation :=
    np_std (flatten parallelized_points) 1 in
  let '(t_statistic, p_value) :=
    ttest_ind (fst <$> classic_points) (fst <$> parallelized_points) in
  Statistics classic_mean parallelized_mean classic_standard_deviation
    parallelized_standard_deviation t_statistic p_value.
End Validator.

(** The two result lines the script can print. *)
Inductive verdict : Type :=
  | no_significant_difference
  | significant_difference.

Definition tol : float := 0.01%float.

(** Lines 230-234 of the script. *)
Definition comparison_result (t_statistic p_value : float) : verdict :=
  if (abs t_statistic <? tol)%float && (0.05 <? p_value)%float
  then no_significant_difference
  else significant_difference.

(** ** The second parallel reducer: [parallel_rdp_algorithm]

    The function makes a pool of its own and submits one call of
    [parallel_rdp] per chunk to it. Each of these calls runs on a worker of
    the local pool and talks to the process-wide pool: it submits
    [classic_rdp] on its chunk there (line 26) and waits for that future
    (line 27). The calls overlap, so a run is a sequence of events: a
    local worker starts the call for chunk [i], or a worker of the
    process-wide pool finishes a future. Reading a result changes nothing
    but forces the future to be finished, so the reads are done at the end,
    by the list comprehension of line 59, which also starts the calls that
    no event has started. *)

Inductive event : Type :=
  | task_starts (i : nat)
  | worker_finishes (fut : nat).

(** The process-wide pool, and for each chunk whose call has started the
    future the call holds there. *)
Record tasks : Type := Tasks {
  global : Executor.pool (list Point);
  started : gmap nat nat
}.

(** Line 26, in the call for chunk [i]. *)
Definition start_task (data_chunks : list (list Point)) (epsilon : float)
    (st : tasks) (i : nat) : tasks :=
  match started st !! i, data_chunks !! i with
  | None, Some chunk =>
      let '(future, ex) :=
        Executor.submit (global st) (classic_rdp chunk epsilon) in
      Tasks ex (<[i := future]> (started st))
  | _, _ => st
  end.

Definition step (data_chunks : list (list Point)) (epsilon : float)
    (st : tasks) (ev : event) : tasks :=
  match ev with
  | task_starts i => start_task data_chunks epsilon st i
  | worker_finishes fut =>
      Tasks (Executor.complete (global st) fut) (started st)
  end.

(** [future.result()] of the local future of chunk [i]: the call has
    started by now, and line 27 returns. *)
Definition task_result (data_chunks : list (list Point)) (epsilon : float)
    (st : tasks) (i : nat) : py (list Point) * tasks :=
  let st := start_task data_chunks epsilon st i in
  match started st !! i with
  | Some future =>
      let '(result, ex) := Executor.result (global st) future in
      (result, Tasks ex (started st))
  | None => (Blocked, st)
  end.

Fixpoint task_results (data_chunks : list (list Point)) (epsilon : float)
    (st : tasks) (futures : list nat) : py (list (list Point)) * tasks :=
  match futures with
  | [] => (Return [], st)
  | i :: futures' =>
      let '(r, st1) := task_result data_chunks epsilon st i in
      let '(rs, st2) := task_results data_chunks epsilon st1 futures' in
      (let* x := r in let* xs := rs in Return (x :: xs), st2)
  end.

(** [chunk_size] is [None] by default; [if chunk_size:] is false for [None]
    and for 0. *)
Definition parallel_rdp_algorithm (executor : Executor.pool (list Point))
    (events : list event) (data : list Point) (epsilon : float)
    (chunk_size : option Z) : py (list Point) * Executor.pool (list Point) :=
  let data_chunks :=
    match chunk_size with
    | Some chunk_size =>
        if (chunk_size =? 0)%Z then Return [data] else chunks data chunk_size
    | None => Return [data]
    end in
  match data_chunks with
  | Return data_chunks =>
      let st := foldl (step data_chunks epsilon) (Tasks executor ∅) events in
      let '(results, st) :=
        task_results data_chunks epsilon st (seq 0 (length data_chunks)) in
      (let* results := results in Return (concat results), global st)
  | Raise e => (Raise e, executor)
  | Blocked => (Blocked, executor)
  end.

(** What holds of the calls in every state of a run: every call that
    has started holds a future of the process-wide pool, and that future
    holds, or will hold, the reduced chunk. *)
Definition tasks_inv (data_chunks : list (list Point)) (epsilon : float)
    (st : tasks) : Prop :=
  ∀ i fut, started st !! i = Some fut →
    fut < Executor.next_future (global st) ∧
    ∃ chunk, data_chunks !! i = Some chunk ∧
             Executor.holds (global st) fut (classic_rdp chunk epsilon).

(** Lines 48-52 alone: the chunks the function works on. *)
Definition algorithm_chunks (data : list Point) (chunk_size : option Z)
    : py (list (list Point)) :=
  match chunk_size with
  | Some chunk_size =>
      if (chunk_size =? 0)%Z then Return [data] else chunks data chunk_size
  | None => Return [data]
  end.

(** ** The script, lines 142 to 160

    [second_row] is column 1 of the CSV file as floats; the points pair
    each value with its row number. *)

Definition script_points (second_row : list float) : list Point :=
  imap (λ i v, (float_of_nat i, v)) second_row.

Definition script_compute (second_row : list float) (sched : list nat)
    : py (float * list Point * list Point) :=
  let points := script_points second_row in
  let* epsilon := calculate_epsilon points in
  let chunk := find_optimal_chunk_size points in
  let classic_points := classic_rdp points epsilon in
  let* parallelized_points := rdp_threadpool points epsilon chunk 4 sched in
  Return (epsilon, classic_points, parallelized_points).

(** ** Saving the result: [save_points_to_csv]

    File names and column labels are strings, one character of a [string]
    for one character of a Python [str]. *)

(** [s.split(sep)] for a separator of one character: the pieces of [s]
    between the separators, at least one piece. *)
Fixpoint py_split (sep : ascii) (s : string) : list string :=
  match s with
  | EmptyString => [EmptyString]
  | String c s' =>
      if Ascii.eqb c sep then EmptyString :: py_split sep s'
      else
        match py_split sep s' with
        | w :: ws => String c w :: ws
        | [] => [String c EmptyString]
        end
  end.

(** The dict display [{k0: v0, k1: v1}]: a key written twice is stored
    once, with the later value. *)
Definition py_dict2 {V} (k0 : string) (v0 : V) (k1 : string) (v1 : V)
    : list (string * V) :=
  if decide (k0 = k1) then [(k0, v1)] else [(k0, v0); (k1, v1)].

(** The argument of the [print] of line 126. *)
Definition error_message : string :=
  String "010" ("An error occured during file saving." +:+
                String "010" EmptyString).

Section Saving.
Context {F E : Type}.
(** [df.to_csv(path, index=False)] of pandas, on the file system [F]: it
    returns or raises an exception of [E], and leaves a file system. *)
Variable to_csv : list (string * list float) → string → F → (E + ()) * F.

(** Lines 112-127. Everything raised inside [try] is caught by the bare
    [except]; the state is the file system and the lines printed. *)
Definition save_points_to_csv (points : list Point) (filename : string)
    (columns : list string) (fs : F) (stdout : list string)
    : Z * (F * list string) :=
  let attempt : py (list (string * list float) * string) :=
    let col_1 := (λ point : Point, point.1) <$> points in
    let col_2 := (λ point : Point, point.2) <$> points in
    let* stem := getitem (py_split "." filename) 0 in
    let directory := "simplified/" +:+ stem +:+ "(simplified).csv" in
    let* label_1 := getitem columns 0 in
    let* label_2 := getitem columns 1 in
    Return (py_dict2 label_1 col_1 label_2 col_2, directory) in
  match attempt with
  | Return (df, directory) =>
      match to_csv df directory fs with
      | (inr _, fs) => (1%Z, (fs, stdout))
      | (inl _, fs) => (0%Z, (fs, stdout ++ [error_message]))
      end
  | _ => (0%Z, (fs, stdout ++ [error_message]))
  end.
End Saving.

(** ** Facts about the partition *)

Section Chunks.
Context {A : Type}.
Implicit Types (points : list A) (cs : Z).

Lemma chunks_pos points cs :
  (1 ≤ cs)%Z →
  chunks points cs =
    Return ((λ i, slice points i (i + Z.to_nat cs)) <$>
              ((λ j, j * Z.to_nat cs) <$>
                 seq 0 (Z.to_nat ((Z.of_nat (length points) + cs - 1) / cs)))).
Proof.
  intros Hcs. unfold chunks, py_range.
  destruct (Z.eqb_spec cs 0) as [?|_]; [lia|].
  destruct (Z.ltb_spec cs 0) as [?|_]; [lia|]. done.
Qed.

(** Number of chunks: [ceil(n / chunk_size)]. *)
Lemma chunks_length points cs l :
  (1 ≤ cs)%Z → chunks points cs = Return l →
  Z.of_nat (length l) = ((Z.of_nat (length points) + cs - 1) / cs)%Z.
Proof.
  intros Hcs. rewrite chunks_pos by done. intros [= <-].
  rewrite !length_fmap, length_seq.
  apply Z2Nat.id, Z.div_pos; lia.
Qed.

Lemma chunk_start_lt points cs j :
  (1 ≤ cs)%Z →
  j < Z.to_nat ((Z.of_nat (length points) + cs - 1) / cs) →
  j * Z.to_nat cs < length points.
Proof.
  intros Hcs Hj.
  set (n := Z.of_nat (length points)) in *.
  assert (Hq : (Z.of_nat j < (n + cs - 1) / cs)%Z).
  { assert (0 ≤ (n + cs - 1) / cs)%Z by (apply Z.div_pos; lia). lia. }
  assert (Hm : (cs * ((n + cs - 1) / cs) ≤ n + cs - 1)%Z)
    by (apply Z.mul_div_le; lia).
  assert (Z.of_nat (j * Z.to_nat cs) < n)%Z; [|lia].
  rewrite Nat2Z.inj_mul, Z2Nat.id by lia. nia.
Qed.

(** Every chunk is non-empty and holds at most [chunk_size] points. *)
Lemma chunks_bounds points cs l c :
  (1 ≤ cs)%Z → chunks points cs = Return l → c ∈ l →
  1 ≤ length c ∧ (Z.of_nat (length c) ≤ cs)%Z.
Proof.
  intros Hcs. rewrite chunks_pos by done. intros [= <-] Hc.
  apply list_elem_of_fmap in Hc as (i & -> & Hi).
  apply list_elem_of_fmap in Hi as (j & -> & Hj).
  apply elem_of_seq in Hj as [_ Hj]. cbn in Hj.
  pose proof (chunk_start_lt points cs j Hcs Hj) as Hlt.
  unfold slice. rewrite length_take, length_drop. lia.
Qed.

(** A chunk size that covers the whole input gives the single chunk. *)
Lemma chunks_single points cs :
  points ≠ [] → (Z.of_nat (length points) ≤ cs)%Z →
  chunks points cs = Return [points].
Proof.
  intros Hne Hcs.
  assert (1 ≤ length points) by (destruct points; [done|cbn; lia]).
  rewrite chunks_pos by lia.
  replace ((Z.of_nat (length points) + cs - 1) / cs)%Z with 1%Z.
  - change (Z.to_nat 1) with 1. cbn. unfold slice. rewrite drop_0.
    f_equal. f_equal. apply take_ge. lia.
  - apply Z.div_unique with (r := (Z.of_nat (length points) - 1)%Z); lia.
Qed.

Lemma chunks_nil cs : (1 ≤ cs)%Z → chunks (@nil A) cs = Return [].
Proof.
  intros Hcs. rewrite chunks_pos by done.
  assert (((Z.of_nat (length (@nil A)) + cs - 1) / cs)%Z = 0%Z) as ->
    by (apply Z.div_small; cbn; lia).
  done.
Qed.
End Chunks.

Lemma find_optimal_chunk_size_pos {A} (data : list A) :
  (1 ≤ find_optimal_chunk_size data)%Z.
Proof. unfold find_optimal_chunk_size. repeat case_match; lia. Qed.

(** ** Facts about the reducer *)

(** Lengths of lists built from [::] and [++], then linear arithmetic. *)
Ltac list_length :=
  repeat (cbn [length] in *; rewrite ?length_app in * );
  lia.

Section ReducerFacts.
Context {P D : Type}.
Variable dist : P → P → P → D.
Variable gt : D → D → bool.
Implicit Types (pts mid r : list P) (a b p : P) (eps d : D).

Lemma farthest_spec a b mid i k0 d0 k d :
  farthest dist gt a b i (k0, d0) mid = (k, d) →
  (k = k0 ∧ d = d0) ∨
  (∃ j p, mid !! j = Some p ∧ k = i + j ∧ d = dist p a b).
Proof.
  revert i k0 d0. induction mid as [|q mid IH]; intros i k0 d0; cbn.
  - intros [= -> ->]. by left.
  - destruct (gt (dist q a b) d0); intros Hf; apply IH in Hf.
    + destruct Hf as [[-> ->]|(j & p & Hj & -> & ->)].
      * right. exists 0, q. split_and!; [done|lia|done].
      * right. exists (S j), p. split_and!; [done|lia|done].
    + destruct Hf as [[-> ->]|(j & p & Hj & -> & ->)]; [by left|].
      right. exists (S j), p. split_and!; [done|lia|done].
Qed.

(** On a polyline of three points or more the split point is interior. *)
Lemma farthest_interior a p1 q tl k d :
  let b := List.last (q :: tl) a in
  farthest dist gt a b 2 (1, dist p1 a b) (removelast (q :: tl)) = (k, d) →
  ∃ m1 p m2,
    a :: p1 :: q :: tl = a :: m1 ++ p :: m2 ++ [b] ∧
    k = S (length m1) ∧ d = dist p a b.
Proof.
  intros b Hf.
  assert (Htl : q :: tl = removelast (q :: tl) ++ [b])
    by (by apply app_removelast_last).
  apply farthest_spec in Hf as [[-> ->]|(j & p & Hj & -> & ->)].
  - exists [], p1, (removelast (q :: tl)). split_and!; [|done..].
    cbn. by do 2 f_equal.
  - exists (p1 :: take j (removelast (q :: tl))), p,
      (drop (S j) (removelast (q :: tl))).
    split_and!; [|cbn [length]; rewrite length_take_le; [lia|]|done].
    + cbn. do 2 f_equal. etrans; [exact Htl|].
      rewrite <-(take_drop_middle _ _ _ Hj) at 1.
      by rewrite <-app_assoc.
    + apply lookup_lt_Some in Hj. lia.
Qed.

Lemma take_split a m1 p (rest : list P) :
  take (S (S (length m1))) (a :: m1 ++ p :: rest) = a :: m1 ++ [p].
Proof.
  cbn [take]. f_equal.
  replace (S (length m1)) with (length m1 + 1) by lia.
  by rewrite take_app_add.
Qed.

Lemma drop_split a m1 p (rest : list P) :
  drop (S (length m1)) (a :: m1 ++ p :: rest) = p :: rest.
Proof. cbn [drop]. by rewrite drop_app_length. Qed.

(** More fuel does not change a result. *)
Lemma rdp_rec_mono fuel fuel' pts eps r :
  rdp_rec dist gt fuel pts eps = Some r → fuel ≤ fuel' →
  rdp_rec dist gt fuel' pts eps = Some r.
Proof.
  revert fuel' pts r. induction fuel as [|fuel IH]; intros fuel' pts r; [done|].
  destruct fuel' as [|fuel']; [lia|].
  destruct pts as [|a [|p1 [|q tl]]]; [done..|].
  cbn [rdp_rec]. destruct (farthest _ _ _ _ _ _ _) as [k d].
  destruct (gt d eps); [|done]. intros Hr Hle.
  destruct (rdp_rec dist gt fuel (take _ _) eps) as [r1|] eqn:H1; [|done].
  destruct (rdp_rec dist gt fuel (drop _ _) eps) as [r2|] eqn:H2; [|done].
  rewrite (IH fuel' _ _ H1), (IH fuel' _ _ H2) by lia. done.
Qed.

(** The induction principle of the reducer: a property of polyline and
    result that holds in the base case, when a chord is flattened and
    when two reduced halves are joined, holds of every run; and every run
    with enough fuel ends. *)
Lemma rdp_rec_ind eps (Q : list P → list P → Prop) :
  (∀ pts, length pts ≤ 2 → Q pts pts) →
  (∀ a m1 p m2 b,
     gt (dist p a b) eps = false →
     Q (a :: m1 ++ p :: m2 ++ [b]) [a; b]) →
  (∀ a m1 p m2 b r1 r2,
     gt (dist p a b) eps = true →
     Q (a :: m1 ++ [p]) r1 → Q (p :: m2 ++ [b]) r2 →
     Q (a :: m1 ++ p :: m2 ++ [b]) (removelast r1 ++ r2)) →
  ∀ fuel pts, length pts < fuel →
    ∃ r, rdp_rec dist gt fuel pts eps = Some r ∧ Q pts r.
Proof.
  intros Hbase Hflat Hjoin.
  induction fuel as [|fuel IH]; intros pts Hlen; [lia|].
  destruct pts as [|a [|p1 [|q tl]]];
    [eexists; split; [done|apply Hbase; cbn; lia]..|].
  cbn [rdp_rec].
  destruct (farthest _ _ _ _ _ _ _) as [k d] eqn:Hf.
  apply farthest_interior in Hf as (m1 & p & m2 & Hpts & -> & ->).
  set (b := List.last (q :: tl) a) in *. clearbody b.
  rewrite Hpts in Hlen |- *. clear Hpts.
  destruct (gt (dist p a b) eps) eqn:Hgt.
  - rewrite take_split, drop_split.
    destruct (IH (a :: m1 ++ [p])) as (r1 & -> & Hr1); [list_length|].
    destruct (IH (p :: m2 ++ [b])) as (r2 & -> & Hr2); [list_length|].
    cbn. eexists. split; [done|]. by apply Hjoin.
  - eexists. split; [done|]. by apply Hflat.
Qed.

(** The reducer is total: the fuel [rdp] starts with is enough, and so is
    any larger one. *)
Lemma rdp_rec_enough fuel pts eps :
  length pts < fuel →
  rdp_rec dist gt fuel pts eps = Some (rdp dist gt pts eps).
Proof.
  intros Hlen.
  destruct (rdp_rec_ind eps (λ _ _, True)) with (S (length pts)) pts
    as (r & Hr & _); [done..|lia|].
  unfold rdp. rewrite Hr. cbn.
  apply rdp_rec_mono with (S (length pts)); [done|lia].
Qed.

(** The equations of §4.3, free of fuel. *)
Lemma rdp_short pts eps : length pts ≤ 2 → rdp dist gt pts eps = pts.
Proof.
  intros Hlen. by destruct pts as [|a [|p1 [|q tl]]]; [..|cbn in Hlen; lia].
Qed.

Lemma rdp_long a p1 q tl eps :
  let pts := a :: p1 :: q :: tl in
  let b := List.last (q :: tl) a in
  rdp dist gt pts eps =
    let '(k, d) :=
      farthest dist gt a b 2 (1, dist p1 a b) (removelast (q :: tl)) in
    if gt d eps
    then removelast (rdp dist gt (take (S k) pts) eps)
         ++ rdp dist gt (drop k pts) eps
    else [a; b].
Proof.
  intros pts b. unfold rdp at 1.
  remember (length pts) as n eqn:Hn. subst pts. cbn [rdp_rec]. fold b.
  destruct (farthest _ _ _ _ _ _ _) as [k d] eqn:Hf.
  destruct (gt d eps); [|done].
  apply farthest_interior in Hf as (m1 & p & m2 & Hpts & -> & _).
  rewrite Hpts in Hn.
  rewrite !rdp_rec_enough; [done|..].
  all: rewrite ?length_drop, ?length_take, Hpts; list_length.
Qed.

Lemma rdp_ind eps (Q : list P → list P → Prop) :
  (∀ pts, length pts ≤ 2 → Q pts pts) →
  (∀ a m1 p m2 b,
     gt (dist p a b) eps = false →
     Q (a :: m1 ++ p :: m2 ++ [b]) [a; b]) →
  (∀ a m1 p m2 b r1 r2,
     gt (dist p a b) eps = true →
     Q (a :: m1 ++ [p]) r1 → Q (p :: m2 ++ [b]) r2 →
     Q (a :: m1 ++ p :: m2 ++ [b]) (removelast r1 ++ r2)) →
  ∀ pts, Q pts (rdp dist gt pts eps).
Proof.
  intros Hbase Hflat Hjoin pts.
  destruct (rdp_rec_ind eps Q Hbase Hflat Hjoin (S (length pts)) pts)
    as (r & Hr & HQ); [lia|].
  unfold rdp. by rewrite Hr.
Qed.

Lemma snoc_assoc a m1 p m2 b :
  a :: m1 ++ p :: m2 ++ [b] = (a :: m1 ++ p :: m2) ++ [b].
Proof. cbn. by rewrite <-app_assoc. Qed.

(** The two end points stay, and what stays in between is a sublist of
    what was in between. *)
Lemma rdp_ends a mid b eps :
  ∃ rmid, rdp dist gt (a :: mid ++ [b]) eps = a :: rmid ++ [b] ∧
          rmid `sublist_of` mid.
Proof.
  pose proof (rdp_ind eps (λ pts r, ∀ a mid b, pts = a :: mid ++ [b] →
    ∃ rmid, r = a :: rmid ++ [b] ∧ rmid `sublist_of` mid)) as Hind.
  eapply Hind; [| | |done]; clear.
  - intros pts Hlen a mid b ->. by exists mid.
  - intros a m1 p m2 b _ a' mid b' Heq.
    rewrite snoc_assoc in Heq.
    change (a' :: mid ++ [b']) with ((a' :: mid) ++ [b']) in Heq.
    apply app_inj_tail in Heq as [[= <- <-] <-].
    exists []. split; [done|apply sublist_nil_l].
  - intros a m1 p m2 b r1 r2 _ H1 H2 a' mid b' Heq.
    destruct (H1 a m1 p eq_refl) as (rm1 & -> & Hs1).
    destruct (H2 p m2 b eq_refl) as (rm2 & -> & Hs2).
    rewrite snoc_assoc in Heq.
    change (a' :: mid ++ [b']) with ((a' :: mid) ++ [b']) in Heq.
    apply app_inj_tail in Heq as [[= <- <-] <-].
    exists (rm1 ++ p :: rm2). split.
    + rewrite app_comm_cons, removelast_last. apply snoc_assoc.
    + apply sublist_app; [done|]. by apply sublist_skip.
Qed.

(** A polyline on which every point is farther than [eps] from every
    chord between an earlier and a later point loses nothing. *)
Lemma rdp_all_far pts eps :
  (∀ a p b, [a; p; b] `sublist_of` pts → gt (dist p a b) eps = true) →
  rdp dist gt pts eps = pts.
Proof.
  pose proof (rdp_ind eps (λ pts r,
    (∀ a p b, [a; p; b] `sublist_of` pts → gt (dist p a b) eps = true) →
    r = pts)) as Hind.
  apply Hind; clear.
  - done.
  - intros a m1 p m2 b Hgt Hfar. rewrite Hfar in Hgt; [done|].
    apply sublist_skip, sublist_inserts_l, sublist_skip.
    apply sublist_inserts_l. done.
  - intros a m1 p m2 b r1 r2 _ H1 H2 Hfar.
    rewrite H1, H2.
    + by rewrite app_comm_cons, removelast_last.
    + intros x y z Hs. apply Hfar. etrans; [exact Hs|].
      apply sublist_cons, sublist_inserts_l. done.
    + intros x y z Hs. apply Hfar. etrans; [exact Hs|].
      rewrite snoc_assoc. change (a :: m1 ++ [p]) with ((a :: m1) ++ [p]).
      rewrite app_comm_cons.
      replace ((a :: m1) ++ p :: m2) with (((a :: m1) ++ [p]) ++ m2)
        by (by rewrite <-app_assoc).
      rewrite <-app_assoc. apply sublist_inserts_r. done.
Qed.
End ReducerFacts.

(** ** Facts about thread pools *)

Module ExecutorFacts.
Import Executor.

Section Pool.
Context {R : Type}.
Implicit Types (ex : pool R) (fut : nat) (r : R) (sched : list nat).

Lemma holds_complete ex i fut r :
  holds ex fut r → holds (complete ex i) fut r.
Proof.
  unfold holds, complete. intros H.
  destruct (pending ex !! i) as [ri|] eqn:Hi; [|done]. cbn.
  destruct (decide (i = fut)) as [->|Hne].
  - right. rewrite lookup_delete_eq, lookup_insert_eq.
    destruct H as [H|[H _]]; by simplify_eq.
  - by rewrite lookup_delete_ne, lookup_insert_ne.
Qed.

Lemma holds_run ex sched fut r :
  holds ex fut r → holds (run ex sched) fut r.
Proof.
  revert ex. induction sched as [|i sched IH]; intros ex H; [done|].
  cbn. by apply IH, holds_complete.
Qed.

Lemma holds_submit ex r : holds (submit ex r).2 (submit ex r).1 r.
Proof. left. cbn. apply lookup_insert_eq. Qed.

Lemma holds_submit_other ex r' fut r :
  fut < next_future ex → holds ex fut r → holds (submit ex r').2 fut r.
Proof.
  intros Hlt H. unfold holds. cbn.
  rewrite lookup_insert_ne by lia. done.
Qed.

(** Waiting for a future that holds [r] returns [r], and disturbs no
    other future. *)
Lemma result_holds ex fut r :
  holds ex fut r → (result ex fut).1 = Return r.
Proof.
  intros H. unfold result. cbn.
  apply (holds_complete _ fut) in H as [H|[_ ->]]; [|done].
  unfold complete in H.
  destruct (pending ex !! fut) eqn:Hp; cbn in H.
  - by rewrite lookup_delete_eq in H.
  - by rewrite Hp in H.
Qed.

Lemma submit_all_preserves rs : ∀ ex fut r,
  fut < next_future ex → holds ex fut r →
  holds (submit_all ex rs).2 fut r.
Proof.
  induction rs as [|r0 rs IH]; intros ex fut r Hlt H; [done|].
  cbn [submit_all submit].
  specialize (IH (submit ex r0).2 fut r). cbn [submit snd] in IH.
  destruct (submit_all _ rs) as [futs ex2]. cbn in *.
  apply IH; [lia|]. by apply (holds_submit_other ex r0).
Qed.

(** Futures are issued in order, and each holds the value it was
    submitted with. *)
Lemma submit_all_spec rs : ∀ ex,
  (submit_all ex rs).1 = seq (next_future ex) (length rs) ∧
  (∀ i r, rs !! i = Some r →
          holds (submit_all ex rs).2 (next_future ex + i) r).
Proof.
  induction rs as [|r0 rs IH]; intros ex; [done|].
  cbn [submit_all submit].
  pose proof (submit_all_preserves rs (submit ex r0).2 (next_future ex) r0)
    as Hkeep.
  destruct (IH (submit ex r0).2) as [Hfuts Hholds].
  cbn [submit snd] in Hkeep, Hfuts, Hholds.
  destruct (submit_all _ rs) as [futs ex2]. cbn in *.
  split; [by rewrite Hfuts|].
  intros [|i] r Hi; cbn in Hi.
  - simplify_eq. rewrite Nat.add_0_r. apply Hkeep; [lia|].
    apply (holds_submit ex r).
  - replace (next_future ex + S i) with (S (next_future ex) + i) by lia.
    by apply Hholds.
Qed.

Lemma result_keeps ex fut fut' r :
  holds ex fut' r → holds (result ex fut).2 fut' r.
Proof. apply holds_complete. Qed.

(** Reading futures that hold [rs], in order, returns [rs]. *)
Lemma results_holds fs : ∀ ex rs,
  Forall2 (holds ex) fs rs → (results ex fs).1 = Return rs.
Proof.
  induction fs as [|fut fs IH]; intros ex rs Hall.
  - by apply Forall2_nil_inv_l in Hall as ->.
  - apply Forall2_cons_inv_l in Hall as (r & rs' & Hr & Hrs & ->).
    cbn [results].
    change (result ex fut) with ((result ex fut).1, complete ex fut).
    rewrite (result_holds ex fut r Hr).
    specialize (IH (complete ex fut) rs').
    destruct (results (complete ex fut) fs) as [os ex2]. cbn in *.
    rewrite IH; [done|].
    eapply Forall2_impl; [exact Hrs|].
    intros f x Hx. by apply holds_complete.
Qed.

(** [executor.map] returns the values of the calls, in the order of the
    arguments, whatever the schedule. *)
Lemma map_spec {A B} ex sched (fn : A → B → R) xs ys :
  (map ex sched fn xs ys).1 = Return (uncurry fn <$> zip xs ys).
Proof.
  unfold map.
  destruct (submit_all_spec (uncurry fn <$> zip xs ys) ex) as [Hfs Hh].
  destruct (submit_all ex _) as [fs ex1]. cbn in Hfs, Hh.
  apply results_holds. subst fs.
  apply Forall2_same_length_lookup_2; [by rewrite length_seq|].
  intros i fut r Hfut Hr.
  apply lookup_seq in Hfut as [-> _].
  by apply holds_run, Hh.
Qed.
End Pool.
End ExecutorFacts.

(** ** Facts about the parallel reducer *)

Lemma chunks_concat {A} (points : list A) cs l :
  (1 ≤ cs)%Z → chunks points cs = Return l → concat l = points.
Proof.
  intros Hcs. rewrite chunks_pos by done. intros [= <-].
  set (c := Z.to_nat cs).
  set (m := Z.to_nat ((Z.of_nat (length points) + cs - 1) / cs)).
  assert (Hc : 1 ≤ c) by lia.
  assert (Hm : length points ≤ m * c).
  { assert (Z.of_nat (length points) ≤ Z.of_nat m * cs)%Z; [|nia].
    unfold m. rewrite Z2Nat.id by (apply Z.div_pos; lia).
    pose proof (Z.mul_succ_div_gt (Z.of_nat (length points) + cs - 1) cs).
    lia. }
  rewrite <-list_fmap_compose.
  assert (Hk : ∀ k, concat ((λ j, slice points (j * c) (j * c + c)) <$> seq 0 k)
                    = take (k * c) points).
  { induction k as [|k IH]; [done|].
    rewrite seq_S, fmap_app, concat_app, IH. cbn.
    rewrite app_nil_r. unfold slice.
    replace (k * c + c - k * c) with c by lia.
    rewrite take_take_drop. f_equal. lia. }
  etrans; [apply Hk|]. by apply take_ge.
Qed.

Lemma map_shared_epsilon (cks : list (list Point)) (epsilon : float) :
  uncurry classic_rdp <$> zip cks (replicate (length cks) epsilon)
  = (λ c, classic_rdp c epsilon) <$> cks.
Proof. induction cks as [|c cks IH]; [done|]. cbn. by rewrite IH. Qed.

(** What [rdp_threadpool] returns once the chunks and the pool exist. *)
Lemma rdp_threadpool_chunks points epsilon chunk_size max_workers sched cks :
  chunks points chunk_size = Return cks → (1 ≤ max_workers)%Z →
  rdp_threadpool points epsilon chunk_size max_workers sched
  = np_vstack ((λ c, classic_rdp c epsilon) <$> cks).
Proof.
  intros Hck Hmw. unfold rdp_threadpool. rewrite Hck. cbn [bind].
  unfold Executor.ThreadPoolExecutor.
  destruct (Z.leb_spec max_workers 0) as [?|_]; [lia|]. cbn [bind].
  rewrite ExecutorFacts.map_spec. cbn [bind].
  by rewrite map_shared_epsilon.
Qed.

(** C2, as amended: for every non-empty polyline, every epsilon, every
    chunk size of at least 1, every pool width of at least 1 and every
    schedule of the workers, [rdp_threadpool] returns the concatenation, in
    chunk order and without de-duplication, of [classic_rdp] applied with
    the shared epsilon to the contiguous chunks that partition the input;
    when the chunk size is at least the number of points this is
    [classic_rdp] of the whole input. *)
Theorem rdp_threadpool_concat points epsilon chunk_size max_workers sched :
  points ≠ [] → (1 ≤ chunk_size)%Z → (1 ≤ max_workers)%Z →
  ∃ cks,
    chunks points chunk_size = Return cks ∧ concat cks = points ∧
    rdp_threadpool points epsilon chunk_size max_workers sched
    = Return (concat ((λ c, classic_rdp c epsilon) <$> cks)) ∧
    ((Z.of_nat (length points) ≤ chunk_size)%Z →
     rdp_threadpool points epsilon chunk_size max_workers sched
     = Return (classic_rdp points epsilon)).
Proof.
  intros Hne Hcs Hmw.
  destruct (chunks points chunk_size) as [cks| |] eqn:Hck;
    [|by rewrite chunks_pos in Hck..].
  pose proof (chunks_concat points chunk_size cks Hcs Hck) as Hcat.
  exists cks. split_and!; [done|done| |].
  - rewrite (rdp_threadpool_chunks _ _ _ _ _ cks) by done.
    destruct cks; [by subst points|done].
  - intros Hall.
    rewrite (rdp_threadpool_chunks _ _ _ _ _ cks) by done.
    rewrite chunks_single in Hck by done. injection Hck as <-.
    cbn. by rewrite app_nil_r.
Qed.

Lemma rdp_threadpool_concat_witness :
  let points := [(0, 0); (1, 1); (2, 0); (3, 5); (4, 5.1); (5, 5)]%float in
  points ≠ [] ∧ (1 ≤ 3)%Z ∧ (1 ≤ 4)%Z ∧
  ∃ cks,
    chunks points 3 = Return cks ∧ concat cks = points ∧
    rdp_threadpool points 0.5%float 3 4 [1; 0]
    = Return (concat ((λ c, classic_rdp c 0.5%float) <$> cks)) ∧
    ((Z.of_nat (length points) ≤ 3)%Z →
     rdp_threadpool points 0.5%float 3 4 [1; 0]
     = Return (classic_rdp points 0.5%float)).
Proof.
  cbv zeta. split_and!; [done|lia|lia|].
  apply rdp_threadpool_concat; [done|lia|lia].
Defined.

(** C2 fails as stated: on the empty polyline the chunks are none, their
    concatenation would be the empty polyline, and [np.vstack] raises
    [ValueError] instead; and a pool width of 0 makes the pool constructor
    raise, so the outcome does depend on [max_workers]. *)
Lemma rdp_threadpool_raises :
  chunks (@nil Point) 1 = Return [] ∧
  rdp_threadpool [] 0.5%float 1 4 [] = Raise ValueError ∧
  rdp_threadpool [(0, 0); (1, 1)]%float 0.5%float 1 4 [] =
    Return [(0, 0); (1, 1)]%float ∧
  rdp_threadpool [(0, 0); (1, 1)]%float 0.5%float 1 0 [] = Raise ValueError.
Proof. by vm_compute. Qed.

(** C10: for every polyline, every epsilon, every state of the process-wide
    pool and every schedule of its workers, [parallel_rdp] returns exactly
    what [classic_rdp] returns on the whole input. *)
Theorem parallel_rdp_classic_rdp executor sched points eps :
  (parallel_rdp executor sched points eps).1
  = Return (classic_rdp points eps).
Proof.
  unfold parallel_rdp.
  pose proof (ExecutorFacts.holds_submit executor (classic_rdp points eps))
    as Hsub.
  destruct (Executor.submit executor (classic_rdp points eps))
    as [future ex1]. cbn [fst snd] in Hsub.
  apply (ExecutorFacts.holds_run _ sched) in Hsub.
  apply ExecutorFacts.result_holds in Hsub.
  by destruct (Executor.result (Executor.run ex1 sched) future).
Qed.

(** On the process-wide pool as created, with a schedule that names the
    new future and one that does not exist. *)
Lemma parallel_rdp_classic_rdp_witness :
  let points := [(0, 0); (1, 1); (2, 0); (3, 5); (4, 5.1); (5, 5)]%float in
  (parallel_rdp executor [5; 0] points 0.5%float).1
  = Return (classic_rdp points 0.5%float).
Proof. cbv zeta. apply parallel_rdp_classic_rdp. Defined.

(** ** Facts about the chunk planner *)

(** C5: the planner is the step function 1, 4, 8, 16, 20 with thresholds
    100, 1000, 5000 and 30000 on the input length; it never returns 0, and
    cutting the input with the returned value never yields an empty
    chunk. *)
Theorem find_optimal_chunk_size_steps {A} (data : list A) :
  let n := Z.of_nat (length data) in
  ((n ≤ 100)%Z → find_optimal_chunk_size data = 1%Z) ∧
  ((100 < n ≤ 1000)%Z → find_optimal_chunk_size data = 4%Z) ∧
  ((1000 < n ≤ 5000)%Z → find_optimal_chunk_size data = 8%Z) ∧
  ((5000 < n ≤ 30000)%Z → find_optimal_chunk_size data = 16%Z) ∧
  ((30000 < n)%Z → find_optimal_chunk_size data = 20%Z) ∧
  find_optimal_chunk_size data ≠ 0%Z ∧
  ∃ cks, chunks data (find_optimal_chunk_size data) = Return cks ∧
         Forall (λ c, c ≠ []) cks.
Proof.
  cbv zeta. split_and!.
  1-5: unfold find_optimal_chunk_size; intros ?; repeat case_match; lia.
  - pose proof (find_optimal_chunk_size_pos data). lia.
  - pose proof (find_optimal_chunk_size_pos data) as Hpos.
    destruct (chunks data (find_optimal_chunk_size data)) as [cks| |] eqn:Hck;
      [|by rewrite chunks_pos in Hck..].
    exists cks. split; [done|]. apply Forall_forall. intros c Hc.
    destruct (chunks_bounds data _ cks c Hpos Hck Hc) as [Hlen _].
    intros ->. cbn in Hlen. lia.
Qed.

(** The table of §8 of the specification, read off the theorem. *)
Lemma find_optimal_chunk_size_table :
  find_optimal_chunk_size (replicate 50 ()) = 1%Z ∧
  find_optimal_chunk_size (replicate 500 ()) = 4%Z ∧
  find_optimal_chunk_size (replicate 3000 ()) = 8%Z ∧
  find_optimal_chunk_size (replicate (Z.to_nat 20000) ()) = 16%Z ∧
  find_optimal_chunk_size (replicate (Z.to_nat 50000) ()) = 20%Z.
Proof.
  split_and!.
  - destruct (find_optimal_chunk_size_steps (replicate 50 ()))
      as (H & _). apply H. rewrite length_replicate. lia.
  - destruct (find_optimal_chunk_size_steps (replicate 500 ()))
      as (_ & H & _). apply H. rewrite length_replicate. lia.
  - destruct (find_optimal_chunk_size_steps (replicate 3000 ()))
      as (_ & _ & H & _). apply H. rewrite length_replicate. lia.
  - destruct (find_optimal_chunk_size_steps (replicate (Z.to_nat 20000) ()))
      as (_ & _ & _ & H & _). apply H. rewrite length_replicate. lia.
  - destruct (find_optimal_chunk_size_steps (replicate (Z.to_nat 50000) ()))
      as (_ & _ & _ & _ & H & _). apply H. rewrite length_replicate. lia.
Defined.

(** What the script's partition is, for every input: [ceil(n / c)] chunks
    of at most [c] points each, [c] being the planner's value. *)
Lemma script_chunks_shape {A} (points : list A) :
  let c := find_optimal_chunk_size points in
  ∃ cks, script_chunks points = Return cks ∧
         Z.of_nat (length cks) = ((Z.of_nat (length points) + c - 1) / c)%Z ∧
         Forall (λ ck, (Z.of_nat (length ck) ≤ c)%Z) cks.
Proof.
  cbv zeta. unfold script_chunks.
  pose proof (find_optimal_chunk_size_pos points) as Hpos.
  destruct (chunks points (find_optimal_chunk_size points)) as [cks| |] eqn:Hck;
    [|by rewrite chunks_pos in Hck..].
  exists cks. split_and!; [done|by apply chunks_length|].
  apply Forall_forall. intros ck Hc.
  by destruct (chunks_bounds points _ cks ck Hpos Hck Hc).
Qed.

(** C6, the code at a polyline of two points: the planner answers 1, which
    its docstring calls the number of chunks, and the script cuts the
    polyline into two chunks of one point each, not into one chunk of two
    points. *)
Theorem script_chunks_two_points {A} (p q : A) :
  find_optimal_chunk_size [p; q] = 1%Z ∧
  script_chunks [p; q] = Return [[p]; [q]].
Proof. done. Qed.

(** ** Facts about the serial reducer *)

Section ReducerDrops.
Context {P D : Type}.
Variable dist : P → P → P → D.
Variable gt : D → D → bool.

(** Interior points none of which is farther than [eps] from the chord of
    the end points are all removed. *)
Lemma rdp_all_near (a b : P) (mid : list P) (eps : D) :
  mid ≠ [] → (∀ p, p ∈ mid → gt (dist p a b) eps = false) →
  rdp dist gt (a :: mid ++ [b]) eps = [a; b].
Proof.
  pose proof (rdp_ind dist gt eps (λ pts r, ∀ a mid b,
    pts = a :: mid ++ [b] → mid ≠ [] →
    (∀ p, p ∈ mid → gt (dist p a b) eps = false) → r = [a; b])) as Hind.
  intros Hne Hnear. eapply Hind; [| | |done..]; clear.
  - intros pts Hlen a mid b -> Hne _. destruct mid; [done|list_length].
  - intros a m1 p m2 b _ a' mid b' Heq _ _.
    rewrite snoc_assoc in Heq.
    change (a' :: mid ++ [b']) with ((a' :: mid) ++ [b']) in Heq.
    by apply app_inj_tail in Heq as [[= <- <-] <-].
  - intros a m1 p m2 b r1 r2 Hgt _ _ a' mid b' Heq _ Hnear.
    rewrite snoc_assoc in Heq.
    change (a' :: mid ++ [b']) with ((a' :: mid) ++ [b']) in Heq.
    apply app_inj_tail in Heq as [[= <- <-] <-].
    rewrite Hnear in Hgt; [done|]. set_solver.
Qed.
End ReducerDrops.

(** C1: for every polyline of at least two points and every epsilon that
    is at least 0, [classic_rdp] returns the first point, a sublist of the
    points in between and the last point: an ordered subsequence of the
    input that starts with its first point and ends with its last, and is
    no longer than the input. *)
Theorem classic_rdp_subsequence (points : list Point) (eps : float) :
  2 ≤ length points → (0 <=? eps)%float = true →
  ∃ first mid last kept,
    points = first :: mid ++ [last] ∧
    classic_rdp points eps = first :: kept ++ [last] ∧
    kept `sublist_of` mid ∧
    classic_rdp points eps `sublist_of` points ∧
    length (classic_rdp points eps) ≤ length points.
Proof.
  intros Hlen _.
  destruct points as [|a rest]; [cbn in Hlen; lia|].
  destruct rest as [|b mid _] using rev_ind; [cbn in Hlen; lia|].
  destruct (rdp_ends chord_distance float_gt a mid b eps)
    as (kept & Hr & Hs).
  assert (classic_rdp (a :: mid ++ [b]) eps `sublist_of` a :: mid ++ [b])
    as Hsub.
  { unfold classic_rdp. rewrite Hr. by apply sublist_skip, sublist_app. }
  exists a, mid, b, kept. split_and!; [done..|].
  by apply sublist_length.
Qed.

Lemma classic_rdp_subsequence_witness :
  let points := [(0, 0); (1, 1); (2, 0); (3, 5); (4, 5.1); (5, 5)]%float in
  let eps := 0.5%float in
  2 ≤ length points ∧ (0 <=? eps)%float = true ∧
  ∃ first mid last kept,
    points = first :: mid ++ [last] ∧
    classic_rdp points eps = first :: kept ++ [last] ∧
    kept `sublist_of` mid ∧
    classic_rdp points eps `sublist_of` points ∧
    length (classic_rdp points eps) ≤ length points.
Proof.
  cbv zeta. split_and!; [cbn; lia|reflexivity|].
  apply classic_rdp_subsequence; [cbn; lia|reflexivity].
Defined.

(** ** Facts about signs of binary64 values *)

Lemma binary_round_aux_sign s m e l :
  binary_round_aux prec emax s m e l = S754_nan ∨
  sf_sign_ok (binary_round_aux prec emax s m e l) = negb s.
Proof.
  unfold binary_round_aux.
  destruct (shr_fexp _ _ _ _ _) as [mrs' e'].
  destruct (shr_fexp _ _ _ _ _) as [mrs'' e''].
  destruct (shr_m mrs''); [by right| |by left].
  destruct (Z.leb _ _); by right.
Qed.

Lemma binary_round_aux_nonneg m e l :
  sf_sign_ok (binary_round_aux prec emax false m e l) = true.
Proof. by destruct (binary_round_aux_sign false m e l) as [->| ->]. Qed.

Lemma SFabs_nonneg x : sf_sign_ok (SFabs x) = true.
Proof. by destruct x. Qed.

Lemma SFdiv_nonneg x y :
  sf_sign_ok x = true → sf_sign_ok y = true → sf_sign_ok (SF64div x y) = true.
Proof.
  destruct x as [[]|[]| |[] mx ex], y as [[]|[]| |[] my ey]; try done.
  intros _ _. unfold SF64div, SFdiv.
  destruct (SFdiv_core_binary _ _ _ _ _ _) as [[mz ez] lz].
  apply binary_round_aux_nonneg.
Qed.

Lemma SFmul_nonneg x y :
  sf_sign_ok x = true → sf_sign_ok y = true → sf_sign_ok (SF64mul x y) = true.
Proof.
  destruct x as [[]|[]| |[] mx ex], y as [[]|[]| |[] my ey]; try done.
  intros _ _. apply binary_round_aux_nonneg.
Qed.

Lemma SFadd_nonneg x y :
  sf_sign_ok x = true → sf_sign_ok y = true → sf_sign_ok (SF64add x y) = true.
Proof.
  destruct x as [[]|[]| |[] mx ex], y as [[]|[]| |[] my ey]; try done.
  intros _ _. unfold SF64add, SFadd. cbn [cond_Zopp].
  destruct (shl_align mx _ _) as [m1 e1], (shl_align my _ _) as [m2 e2].
  cbn [fst].
  change (Z.pos m1 + Z.pos m2)%Z with (Z.pos (m1 + m2)).
  cbn [binary_normalize]. unfold binary_round.
  destruct (shl_align _ _ _) as [mz ez].
  apply binary_round_aux_nonneg.
Qed.

Lemma SFsqrt_nonneg x :
  (∀ s, x ≠ S754_zero s) → sf_sign_ok (SF64sqrt x) = true.
Proof.
  destruct x as [s|[]| |[] mx ex]; try done.
  - intros H. by destruct (H s).
  - intros _. unfold SF64sqrt, SFsqrt.
    destruct (SFsqrt_core_binary _ _ _ _) as [[mz ez] lz].
    apply binary_round_aux_nonneg.
Qed.

Lemma SFeqb_sub x y :
  SFeqb x y = true →
  SF64sub x y = S754_nan ∨ ∃ s, SF64sub x y = S754_zero s.
Proof.
  unfold SFeqb.
  destruct x as [[]|[]| |[] mx ex], y as [[]|[]| |[] my ey]; cbn [SFcompare];
    intros H; try done; try (by left); try (right; by eauto).
  all: destruct (Z.compare_spec ex ey) as [->|?|?]; try done.
  all: change (Pos.compare_cont Eq mx my) with (Pos.compare mx my) in H.
  all: destruct (Pos.compare_spec mx my) as [->|?|?]; try done.
  all: right; exists false; unfold SF64sub, SFsub; by rewrite Z.sub_diag.
Qed.

Lemma SFdiv_by_zero_or_nan x y :
  (y = S754_nan ∨ ∃ s, y = S754_zero s) → sf_nonfinite (SF64div x y) = true.
Proof. intros [->|[s ->]]; by destruct x as [[]|[]| |[] mx ex]. Qed.

Lemma abs_never_negative v : never_negative (abs v).
Proof. unfold never_negative. rewrite abs_spec. apply SFabs_nonneg. Qed.

Lemma div_never_negative a b :
  never_negative a → never_negative b → never_negative (a / b).
Proof. unfold never_negative. rewrite div_spec. apply SFdiv_nonneg. Qed.

Lemma mul_never_negative a b :
  never_negative a → never_negative b → never_negative (a * b).
Proof. unfold never_negative. rewrite mul_spec. apply SFmul_nonneg. Qed.

Lemma add_never_negative a b :
  never_negative a → never_negative b → never_negative (a + b).
Proof. unfold never_negative. rewrite add_spec. apply SFadd_nonneg. Qed.

Lemma pow_half_never_negative x : never_negative (pow_half x).
Proof.
  unfold pow_half, never_negative.
  destruct (x =? 0)%float eqn:H0; [done|].
  destruct (x =? neg_infinity)%float; [done|].
  rewrite sqrt_spec. apply SFsqrt_nonneg. intros s Hs.
  rewrite FloatAxioms.eqb_spec, Hs in H0. by destruct s.
Qed.

Lemma py_sum_never_negative U :
  Forall never_negative U → never_negative (py_sum U).
Proof.
  unfold py_sum. assert (never_negative 0) as H0 by done.
  revert H0. generalize 0%float as acc.
  induction U as [|u U IH]; intros acc Hacc HU; [done|].
  apply Forall_cons in HU as [Hu HU].
  cbn. apply IH; [|done]. by apply add_never_negative.
Qed.

Lemma positive_never_negative d : (0 <? d)%float = true → never_negative d.
Proof.
  unfold never_negative. rewrite FloatAxioms.ltb_spec.
  change (Prim2SF 0) with (S754_zero false).
  by destruct (Prim2SF d) as [[]|[]| |[] m e].
Qed.

Lemma never_negative_ltb v : never_negative v → (v <? 0)%float = false.
Proof.
  unfold never_negative. rewrite FloatAxioms.ltb_spec.
  change (Prim2SF 0) with (S754_zero false).
  by destruct (Prim2SF v) as [[]|[]| |[] m e].
Qed.

Lemma nonfinite_is_finite v :
  sf_nonfinite (Prim2SF v) = true → is_finite v = false.
Proof.
  unfold is_finite, is_nan, is_infinity.
  rewrite !FloatAxioms.eqb_spec, abs_spec.
  change (Prim2SF infinity) with (S754_infinity false).
  by destruct (Prim2SF v) as [[]|[]| |[] m e].
Qed.

(** Dividing by the difference of two equal numbers never gives a finite
    value. *)
Lemma div_by_difference_of_equals t x1 x2 :
  (x2 =? x1)%float = true → is_finite (t / (x2 - x1)) = false.
Proof.
  rewrite FloatAxioms.eqb_spec. intros Heq. apply nonfinite_is_finite.
  rewrite div_spec, sub_spec.
  by apply SFdiv_by_zero_or_nan, SFeqb_sub.
Qed.

(** ** What the reducer removes *)

(** Membership in lists built from [::] and [++]. *)
Ltac list_elem :=
  rewrite ?elem_of_cons, ?elem_of_app, ?elem_of_cons, ?elem_of_app,
    ?elem_of_cons, ?elem_of_nil in *;
  tauto.

Section ReducerRuns.
Context {P D : Type}.
Variable dist : P → P → P → D.
Variable gt : D → D → bool.
Variable eps : D.
(** The distances that occur, on which [gt] behaves as an order around
    [eps]: a distance above [eps] beats one that is not, and what beats a
    distance above [eps] is above [eps]. *)
Variable good : D → Prop.
Hypothesis gt_beats : ∀ d best,
  good d → good best →
  gt d eps = true → gt best eps = false → gt d best = true.
Hypothesis gt_above : ∀ d best,
  good d → good best →
  gt d best = true → gt best eps = true → gt d eps = true.

(** When the largest distance found does not exceed [eps], none does. *)
Lemma farthest_near a b mid : ∀ i k0 d0,
  good d0 → (∀ p, p ∈ mid → good (dist p a b)) →
  gt (farthest dist gt a b i (k0, d0) mid).2 eps = false →
  gt d0 eps = false ∧ ∀ p, p ∈ mid → gt (dist p a b) eps = false.
Proof.
  induction mid as [|q mid IH]; intros i k0 d0 Hd0 Hmid;
    cbn [farthest snd].
  - intros Hd. split; [done|]. intros p Hp. by apply elem_of_nil in Hp.
  - assert (good (dist q a b)) as Hq by (apply Hmid; left).
    assert (∀ p, p ∈ mid → good (dist p a b)) as Hmid'
      by (intros p Hp; apply Hmid; by right).
    destruct (gt (dist q a b) d0) eqn:Hgt; cbn [snd]; intros Hd.
    + destruct (IH _ _ _ Hq Hmid' Hd) as [Hqe Hrest].
      assert (gt d0 eps = false) as Hd0e.
      { destruct (gt d0 eps) eqn:H0; [|done].
        by rewrite (gt_above _ _ Hq Hd0 Hgt H0) in Hqe. }
      split; [done|]. intros p Hp.
      apply elem_of_cons in Hp as [->|Hp]; [done|by apply Hrest].
    + destruct (IH _ _ _ Hd0 Hmid' Hd) as [Hd0e Hrest].
      split; [done|]. intros p Hp.
      apply elem_of_cons in Hp as [->|Hp]; [|by apply Hrest].
      destruct (gt (dist q a b) eps) eqn:Hqe; [|done].
      by rewrite (gt_beats _ _ Hq Hd0 Hqe Hd0e) in Hgt.
Qed.

Lemma removes_only_head (nr : P → P → P → Prop) a l r :
  removes_only nr (a :: l) r → ∃ r', r = a :: r'.
Proof. inversion 1; subst; by eexists. Qed.

(** Two reduced halves that share the split point join. *)
Lemma removes_only_join (nr : P → P → P → Prop) xs p ys r1 r2 :
  removes_only nr (xs ++ [p]) r1 → removes_only nr (p :: ys) r2 →
  removes_only nr (xs ++ p :: ys) (removelast r1 ++ r2).
Proof.
  intros H1 H2. remember (xs ++ [p]) as l eqn:Hl. revert xs Hl.
  induction H1 as [l Hlen|a mid b rest r Hnear H1 IH]; intros xs Hl.
  - subst l. destruct xs as [|x xs]; [done|].
    rewrite length_app in Hlen. cbn in Hlen. lia.
  - assert (∃ xs', b :: rest = xs' ++ [p] ∧ xs = a :: mid ++ xs')
      as (xs' & Hrest & ->).
    { exists (removelast (b :: rest)).
      assert (b :: rest = removelast (b :: rest) ++ [List.last (b :: rest) p])
        as Hsplit by (by apply app_removelast_last).
      rewrite Hsplit in Hl.
      change (a :: mid ++ removelast (b :: rest) ++ [List.last (b :: rest) p])
        with ((a :: mid) ++ removelast (b :: rest)
              ++ [List.last (b :: rest) p]) in Hl.
      rewrite app_assoc in Hl.
      apply app_inj_tail in Hl as [<- Hp]. rewrite Hp in Hsplit.
      by split. }
    specialize (IH xs' Hrest).
    change (removelast (a :: b :: r)) with (a :: removelast (b :: r)).
    assert (∃ rest', xs' ++ p :: ys = b :: rest') as [rest' Hb].
    { destruct xs' as [|b0 xs'']; simplify_eq/=; by eexists. }
    rewrite Hb in IH.
    destruct (removes_only_head _ _ _ _ IH) as [r' Hr'].
    rewrite Hr' in IH.
    replace ((a :: mid ++ xs') ++ p :: ys) with (a :: mid ++ b :: rest')
      by (rewrite <-Hb; cbn; by rewrite <-app_assoc).
    cbn [app]. rewrite Hr'. by apply removes_run.
Qed.

(** The reducer removes only runs of points none of which is farther than
    [eps] from the chord between the two points that stay around it. *)
Lemma rdp_removes_only pts :
  (∀ p a b, p ∈ pts → a ∈ pts → b ∈ pts → good (dist p a b)) →
  removes_only (λ p a b, gt (dist p a b) eps = false) pts
    (rdp dist gt pts eps).
Proof.
  remember (length pts) as n eqn:Hn. revert pts Hn.
  induction n as [n IH] using lt_wf_ind. intros pts -> Hgood.
  destruct pts as [|a [|p1 [|q tl]]].
  - rewrite rdp_short by (cbn; lia). apply removes_nothing. cbn. lia.
  - rewrite rdp_short by (cbn; lia). apply removes_nothing. cbn. lia.
  - rewrite rdp_short by (cbn; lia).
    apply (removes_run _ a [] p1 [] []).
    + intros p Hp. by apply elem_of_nil in Hp.
    + apply removes_nothing. cbn. lia.
  - rewrite rdp_long. cbv zeta.
    set (b := List.last (q :: tl) a) in *.
    assert (Htl : q :: tl = removelast (q :: tl) ++ [b])
      by (by apply app_removelast_last).
    destruct (farthest _ _ _ _ _ _ _) as [k d] eqn:Hf.
    destruct (gt d eps) eqn:Hgt.
    + apply farthest_interior in Hf as (m1 & p & m2 & Hpts & -> & _).
      fold b in Hpts. rewrite Hpts in *. clear Hpts Htl.
      rewrite take_split, drop_split.
      replace (a :: m1 ++ p :: m2 ++ [b])
        with ((a :: m1) ++ p :: m2 ++ [b]) by done.
      apply removes_only_join.
      * apply (IH (length (a :: m1 ++ [p]))); [list_length|done|].
        intros x y z Hx Hy Hz. apply Hgood; list_elem.
      * apply (IH (length (p :: m2 ++ [b]))); [list_length|done|].
        intros x y z Hx Hy Hz. apply Hgood; list_elem.
    + assert (b ∈ a :: p1 :: q :: tl) as Hb.
      { do 2 right. rewrite Htl. list_elem. }
      destruct (farthest_near a b (removelast (q :: tl)) 2 1 (dist p1 a b))
        as [Hp1 Hmid].
      * apply Hgood; [list_elem|list_elem|done].
      * intros p Hp. apply Hgood; [|list_elem|done].
        do 2 right. rewrite Htl. list_elem.
      * by rewrite Hf.
      * rewrite Htl.
        apply (removes_run _ a (p1 :: removelast (q :: tl)) b [] []).
        -- intros p Hp. apply elem_of_cons in Hp as [->|Hp]; [done|].
           by apply Hmid.
        -- apply removes_nothing. cbn. lia.
Qed.
End ReducerRuns.

(** A polyline without a run of points that could go comes back whole. *)
Lemma removes_only_unchanged {P} (near : P → P → P → Prop) pts r :
  removes_only near pts r →
  (∀ pre a mid b post,
     pts = pre ++ a :: mid ++ b :: post → mid ≠ [] →
     ∃ p, p ∈ mid ∧ ¬ near p a b) →
  r = pts.
Proof.
  induction 1 as [pts Hlen|a mid b rest r Hnear H1 IH]; intros Hruns;
    [done|].
  destruct mid as [|q mid].
  - cbn. f_equal. apply IH. intros pre a' mid' b' post Heq Hne.
    apply (Hruns (a :: pre) a' mid' b' post); [|done].
    cbn. by rewrite Heq.
  - destruct (Hruns [] a (q :: mid) b rest) as (p & Hp & Hfar); [done..|].
    destruct Hfar. by apply Hnear.
Qed.

Lemma removes_only_impl {P} (near near' : P → P → P → Prop) pts r :
  (∀ p a b, p ∈ pts → a ∈ pts → b ∈ pts → near p a b → near' p a b) →
  removes_only near pts r → removes_only near' pts r.
Proof.
  intros Himpl H. induction H as [pts Hlen|a mid b rest r Hnear H1 IH].
  - by apply removes_nothing.
  - apply removes_run.
    + intros p Hp. apply Himpl; [list_elem..|by apply Hnear].
    + apply IH. intros p x y Hp Hx Hy. apply Himpl; list_elem.
Qed.

(** ** Epsilon 0 in the serial reducer *)

Lemma SFsqrt_sign_ok x :
  sf_sign_ok x = true → sf_sign_ok (SF64sqrt x) = true.
Proof.
  destruct x as [[]|[]| |[] mx ex]; try done.
  intros _. unfold SF64sqrt, SFsqrt.
  destruct (SFsqrt_core_binary _ _ _ _) as [[mz ez] lz].
  apply binary_round_aux_nonneg.
Qed.

Lemma SFmul_square x : sf_sign_ok (SF64mul x x) = true.
Proof.
  destruct x as [[]|[]| |[] mx ex]; try done; apply binary_round_aux_nonneg.
Qed.

Lemma sqrt_never_negative x : never_negative x → never_negative (sqrt x).
Proof. unfold never_negative. rewrite sqrt_spec. apply SFsqrt_sign_ok. Qed.

Lemma square_never_negative x : never_negative (x * x).
Proof. unfold never_negative. rewrite mul_spec. apply SFmul_square. Qed.

(** The distance the reducer compares is never below zero. *)
Lemma chord_distance_never_negative p a b :
  never_negative (chord_distance p a b).
Proof.
  destruct p as [x y], a as [sx sy], b as [ex ey].
  unfold chord_distance, perpendicularDistance.
  destruct ((sx =? ex)%float && (sy =? ey)%float).
  - apply sqrt_never_negative, add_never_negative;
      apply square_never_negative.
  - apply div_never_negative; [apply abs_never_negative|].
    apply sqrt_never_negative, add_never_negative;
      apply square_never_negative.
Qed.

Lemma is_nan_false v : is_nan v = false → Prim2SF v ≠ S754_nan.
Proof.
  unfold is_nan. rewrite FloatAxioms.eqb_spec. intros H Hnan.
  by rewrite Hnan in H.
Qed.

(** Among numbers that are not negative, [>] behaves around 0 as an order
    does: what exceeds 0 beats what does not, and what beats a number
    above 0 is above 0. *)
Lemma float_gt_beats d best :
  never_negative d ∧ is_nan d = false →
  never_negative best ∧ is_nan best = false →
  float_gt d 0 = true → float_gt best 0 = false → float_gt d best = true.
Proof.
  unfold float_gt, never_negative.
  intros [Hd Hdn%is_nan_false] [Hb Hbn%is_nan_false].
  rewrite !FloatAxioms.ltb_spec. change (Prim2SF 0) with (S754_zero false).
  by destruct (Prim2SF d) as [[]|[]| |[] md ed],
    (Prim2SF best) as [[]|[]| |[] mb eb].
Qed.

Lemma float_gt_above d best :
  never_negative d ∧ is_nan d = false →
  never_negative best ∧ is_nan best = false →
  float_gt d best = true → float_gt best 0 = true → float_gt d 0 = true.
Proof.
  unfold float_gt, never_negative.
  intros [Hd Hdn%is_nan_false] [Hb Hbn%is_nan_false].
  rewrite !FloatAxioms.ltb_spec. change (Prim2SF 0) with (S754_zero false).
  by destruct (Prim2SF d) as [[]|[]| |[] md ed],
    (Prim2SF best) as [[]|[]| |[] mb eb].
Qed.

(** A distance that is a number and does not exceed 0 is 0. *)
Lemma float_not_gt_zero d :
  never_negative d → is_nan d = false → float_gt d 0 = false → d = 0%float.
Proof.
  unfold float_gt, never_negative. intros Hd Hdn%is_nan_false.
  rewrite FloatAxioms.ltb_spec. change (Prim2SF 0) with (S754_zero false).
  intros Hlt. rewrite <-(SF2Prim_Prim2SF d).
  by destruct (Prim2SF d) as [[]|[]| |[] md ed].
Qed.

Lemma no_nan_distance_spec (points : list Point) p a b :
  no_nan_distance points = true →
  p ∈ points → a ∈ points → b ∈ points →
  is_nan (chord_distance p a b) = false.
Proof.
  unfold no_nan_distance. rewrite forallb_forall.
  intros H Hp%list_elem_of_In Ha%list_elem_of_In Hb%list_elem_of_In.
  specialize (H p Hp). rewrite forallb_forall in H.
  specialize (H a Ha). rewrite forallb_forall in H.
  specialize (H b Hb). by apply negb_true_iff in H.
Qed.




(** ** Facts about the epsilon estimator *)

Lemma getitem_nat {A} (l : list A) (i : nat) (x : A) :
  l !! i = Some x → getitem l (Z.of_nat i) = Return x.
Proof.
  intros Hi. unfold getitem.
  destruct (Z.ltb_spec (Z.of_nat i) 0) as [?|_]; [lia|].
  destruct (Z.ltb_spec (Z.of_nat i) 0) as [?|_]; [lia|].
  by rewrite Nat2Z.id, Hi.
Qed.

Lemma getitem_last {A} (l : list A) (x : A) :
  last l = Some x → getitem l (-1) = Return x.
Proof.
  intros Hl. unfold getitem. rewrite last_lookup in Hl.
  pose proof (lookup_lt_Some _ _ _ Hl) as Hlt.
  change (-1 <? 0)%Z with true. cbv iota.
  destruct (Z.ltb_spec (Z.of_nat (length l) + -1) 0) as [?|_]; [lia|].
  replace (Z.to_nat (Z.of_nat (length l) + -1)) with (pred (length l)) by lia.
  by rewrite Hl.
Qed.

Lemma getitem_head {A} (l : list A) (x : A) :
  head l = Some x → getitem l 0 = Return x.
Proof. rewrite head_lookup. apply (getitem_nat l 0). Qed.

(** A loop that appends one value per point fills [U] in order. *)
Lemma py_for_collect (f : Point → float) (points : list Point)
    (body : nat → list float → py (list float)) :
  (∀ i U q, points !! i = Some q → body i U = Return (U ++ [f q])) →
  ∀ n i U, i + n ≤ length points →
    py_for (seq i n) body U = Return (U ++ (f <$> take n (drop i points))).
Proof.
  intros Hbody. induction n as [|n IH]; intros i U Hlen; cbn [seq py_for].
  - by rewrite take_0, app_nil_r.
  - destruct (lookup_lt_is_Some_2 points i) as [q Hq]; [lia|].
    rewrite (Hbody _ _ _ Hq). cbn [bind].
    rewrite IH by lia. rewrite <-app_assoc.
    by rewrite (drop_S _ _ _ Hq).
Qed.

(** The estimator on a polyline that starts at [(x1, y1)] and ends at
    [(x2, y2)]: no check is made, the formula is evaluated. *)
Lemma calculate_epsilon_formula (points : list Point) (x1 y1 x2 y2 : float) :
  head points = Some (x1, y1) → last points = Some (x2, y2) →
  calculate_epsilon points
  = Return (epsilon_formula (doubled_denominator x1 y1 x2 y2)
              x1 y1 x2 y2 points).
Proof.
  intros Hhd Hlast. unfold calculate_epsilon.
  rewrite (getitem_head (A:=Point) _ _ Hhd). cbn [bind].
  rewrite (getitem_last (A:=Point) _ _ Hlast). cbn [bind].
  rewrite (py_for_collect
    (λ q, (chord_deviation x1 y1 x2 y2 q
           / doubled_denominator x1 y1 x2 y2)%float) points).
  - by rewrite drop_0, firstn_all.
  - intros i U [xi yi] Hq. by rewrite (getitem_nat (A:=Point) _ _ _ Hq).
  - lia.
Qed.

(** C3, the code on the polyline (0,0), (1,5), (2,6).  The denominator of
    the code is [((y2 - y1) * 2 + (x2 - x1) * 2) ** 0.5]: the terms are
    doubled and nothing is squared, which gives 16 ** 0.5 = 4 here (an
    exact power) and the epsilon 0.0005.  A denominator built from the
    squared terms gives another value: the perpendicular distance that
    the comments of the function announce divides by the chord length,
    the square root of 40, and gives an epsilon of about 0.000316; the
    terms squared and doubled give the denominator 80 or 160, or a square
    root of these; each of the five gives an epsilon below 0.0004. *)
Theorem calculate_epsilon_not_squared :
  let points := [(0, 0); (1, 5); (2, 6)]%float in
  let claimed d := epsilon_formula d 0 0 2 6 points in
  calculate_epsilon points = Return 0.0005%float ∧
  doubled_denominator 0 0 2 6 = 4%float ∧
  (claimed (segment_length 0 0 2 6) <? 0.0004)%float = true ∧
  (claimed (squared_and_doubled 0 0 2 6) <? 0.0004)%float = true ∧
  (claimed (sqrt (squared_and_doubled 0 0 2 6)) <? 0.0004)%float = true ∧
  (claimed (doubled_and_squared 0 0 2 6) <? 0.0004)%float = true ∧
  (claimed (sqrt (doubled_and_squared 0 0 2 6)) <? 0.0004)%float = true.
Proof. cbv zeta. split_and!; by vm_compute. Qed.

(** C4 fails as stated: a single point and a polyline with [x2 == x1] make
    the estimator return a NaN or an infinity, not raise; and inputs of two
    points or more with [x2 != x1] can give a negative epsilon or a NaN. *)
Lemma calculate_epsilon_unchecked :
  calculate_epsilon [(0, 0)]%float = Return nan ∧
  calculate_epsilon [(0, 0); (1, 5); (0, 1)]%float = Return infinity ∧
  calculate_epsilon [(1, 0); (5, 5); (0, 3)]%float
  = Return (-0.0085000000000000006)%float ∧
  calculate_epsilon [(0, 0); (1, -5)]%float = Return nan.
Proof. by vm_compute. Qed.

Lemma epsilon_formula_never_negative x1 y1 x2 y2 (points : list Point) :
  (0 <? x2 - x1)%float = true →
  never_negative
    (epsilon_formula (doubled_denominator x1 y1 x2 y2) x1 y1 x2 y2 points).
Proof.
  intros Hdx. unfold epsilon_formula.
  apply div_never_negative; [|by apply positive_never_negative].
  apply mul_never_negative; [|done].
  apply py_sum_never_negative, Forall_fmap, Forall_forall. intros q _.
  apply div_never_negative;
    [apply abs_never_negative|apply pow_half_never_negative].
Qed.

(** C4, as amended: [calculate_epsilon] checks nothing. It raises only on
    the empty input, where [points[0]] raises [IndexError]; on every other
    input it returns the value of its formula in binary64 arithmetic. When
    [x2 == x1], a single point included, that value is a NaN or an
    infinity, not an error; when the computed [x2 - x1] is positive it is
    never negative (it is at least 0, or a NaN), but need not be finite. *)
Theorem calculate_epsilon_raises_only_on_empty :
  calculate_epsilon [] = Raise IndexError ∧
  ∀ (points : list Point) (x1 y1 x2 y2 : float),
    head points = Some (x1, y1) → last points = Some (x2, y2) →
    ∃ v,
      calculate_epsilon points = Return v ∧
      v = epsilon_formula (doubled_denominator x1 y1 x2 y2)
            x1 y1 x2 y2 points ∧
      ((x2 =? x1)%float = true → is_finite v = false) ∧
      ((0 <? x2 - x1)%float = true → (v <? 0)%float = false).
Proof.
  split; [done|]. intros points x1 y1 x2 y2 Hhd Hlast.
  eexists. split_and!; [by apply calculate_epsilon_formula|done|..].
  - apply div_by_difference_of_equals.
  - intros Hdx. by apply never_negative_ltb, epsilon_formula_never_negative.
Qed.

Lemma calculate_epsilon_raises_only_on_empty_witness :
  (∃ v, calculate_epsilon [(3, 4)]%float = Return v ∧ is_finite v = false) ∧
  (∃ v, calculate_epsilon [(0, 0); (1, 5); (2, 0)]%float = Return v ∧
        (v <? 0)%float = false).
Proof.
  destruct calculate_epsilon_raises_only_on_empty as [_ H]. split.
  - destruct (H [(3, 4)]%float 3 4 3 4)%float
      as (v & Hv & _ & Hnan & _); [done..|].
    exists v. split; [done|]. by apply Hnan.
  - destruct (H [(0, 0); (1, 5); (2, 0)]%float 0 0 2 0)%float
      as (v & Hv & _ & _ & Hpos); [done..|].
    exists v. split; [done|]. by apply Hpos.
Defined.

(** ** Facts about the equivalence validator *)

(** Which numbers the script feeds to its statistics, for every pair of
    results: the means are over column 1, the standard deviations over all
    coordinates of the flattened array with divisor [2n - 1], and the
    t-test over column 0. *)
Lemma compute_statistics_columns ttest_ind (c p : list Point) :
  let s := compute_statistics ttest_ind c p in
  classic_mean s = np_mean (snd <$> c) ∧
  parallelized_mean s = np_mean (snd <$> p) ∧
  classic_standard_deviation s = np_std (flatten c) 1 ∧
  parallelized_standard_deviation s = np_std (flatten p) 1 ∧
  (t_statistic s, p_value s) = ttest_ind (fst <$> c) (fst <$> p).
Proof.
  cbv zeta. unfold compute_statistics.
  by destruct (ttest_ind (fst <$> c) (fst <$> p)).
Qed.

(** C8, the code on the results (0,2), (1,4): the mean is that of the
    values 2 and 4, but the standard deviation is that of 0, 2, 1, 4 (about
    1.708, where the values alone give about 1.414), and the t-test is run
    on the indices 0 and 1, not on the values. *)
Theorem compute_statistics_mixes_axes ttest_ind :
  let points := [(0, 2); (1, 4)]%float in
  let s := compute_statistics ttest_ind points points in
  classic_mean s = 3%float ∧
  classic_standard_deviation s = np_std [0; 2; 1; 4]%float 1 ∧
  classic_standard_deviation s = 1.707825127659933%float ∧
  np_std (snd <$> points) 1 = 1.4142135623730951%float ∧
  (t_statistic s, p_value s) = ttest_ind [0; 1]%float [0; 1]%float.
Proof.
  cbv zeta.
  destruct (compute_statistics_columns ttest_ind
              [(0, 2); (1, 4)]%float [(0, 2); (1, 4)]%float)
    as (-> & _ & -> & _ & ->).
  split_and!; by vm_compute.
Qed.

(** C7: the script reports no significant difference exactly when the
    absolute t-statistic is strictly below the tolerance 0.01 and the
    p-value is strictly above 0.05, both at once; in every other case it
    reports a significant difference. *)
Theorem comparison_result_iff (t_statistic p_value : float) :
  (comparison_result t_statistic p_value = no_significant_difference ↔
   (abs t_statistic <? 0.01)%float = true ∧ (0.05 <? p_value)%float = true) ∧
  (comparison_result t_statistic p_value = significant_difference ↔
   ¬ ((abs t_statistic <? 0.01)%float = true ∧
      (0.05 <? p_value)%float = true)).
Proof.
  unfold comparison_result, tol.
  destruct (abs t_statistic <? 0.01)%float, (0.05 <? p_value)%float; cbn;
    split; split; intros; try done; by intuition.
Qed.

(** The conjunction at work: either test alone is not enough. *)
Lemma comparison_result_examples :
  comparison_result 0.001 0.9 = no_significant_difference ∧
  comparison_result 0.001 0.01 = significant_difference ∧
  comparison_result 0.5 0.9 = significant_difference ∧
  comparison_result nan 0.9 = significant_difference.
Proof. by vm_compute. Qed.

(** * Further properties of the code *)

(** ** The reducer on polylines of any length *)

Section ReducerKeeps.
Context {P D : Type}.
Variable dist : P → P → P → D.
Variable gt : D → D → bool.
Implicit Types (pts : list P) (eps : D).

Lemma two_ends pts :
  2 ≤ length pts → ∃ a mid b, pts = a :: mid ++ [b].
Proof.
  intros Hlen. destruct pts as [|a rest]; [cbn in Hlen; lia|].
  destruct rest as [|b mid _] using rev_ind; [cbn in Hlen; lia|].
  by exists a, mid, b.
Qed.

Lemma rdp_sublist pts eps : rdp dist gt pts eps `sublist_of` pts.
Proof.
  destruct (decide (length pts ≤ 2)) as [Hs|Hl].
  - by rewrite rdp_short.
  - destruct (two_ends pts) as (a & mid & b & ->); [lia|].
    destruct (rdp_ends dist gt a mid b eps) as (rmid & -> & Hsub).
    by apply sublist_skip, sublist_app.
Qed.

Lemma rdp_head pts eps : head (rdp dist gt pts eps) = head pts.
Proof.
  destruct (decide (length pts ≤ 2)) as [Hs|Hl].
  - by rewrite rdp_short.
  - destruct (two_ends pts) as (a & mid & b & ->); [lia|].
    by destruct (rdp_ends dist gt a mid b eps) as (rmid & -> & Hsub).
Qed.

Lemma rdp_last pts eps : last (rdp dist gt pts eps) = last pts.
Proof.
  destruct (decide (length pts ≤ 2)) as [Hs|Hl].
  - by rewrite rdp_short.
  - destruct (two_ends pts) as (a & mid & b & ->); [lia|].
    destruct (rdp_ends dist gt a mid b eps) as (rmid & -> & Hsub).
    by rewrite !app_comm_cons, !last_snoc.
Qed.

(** Two points or more never shrink below two. *)
Lemma rdp_length_ge pts eps :
  2 ≤ length pts → 2 ≤ length (rdp dist gt pts eps).
Proof.
  intros Hlen. destruct (two_ends pts) as (a & mid & b & ->); [done|].
  destruct (rdp_ends dist gt a mid b eps) as (rmid & -> & _). list_length.
Qed.
End ReducerKeeps.

(** ** Lists of chunks and their reduced forms *)

Section Concat.
Context {A : Type}.
Implicit Types (f : list A → list A) (cks : list (list A)).

Lemma concat_fmap_sublist f cks :
  (∀ c, f c `sublist_of` c) → concat (f <$> cks) `sublist_of` concat cks.
Proof.
  intros Hf. induction cks as [|c cks IH]; [done|].
  cbn. by apply sublist_app.
Qed.

Lemma concat_fmap_head f cks :
  (∀ c, head (f c) = head c) → head (concat (f <$> cks)) = head (concat cks).
Proof.
  intros Hf. induction cks as [|c cks IH]; [done|]. cbn.
  specialize (Hf c). destruct c as [|x c], (f _) as [|y r]; by simplify_eq/=.
Qed.

Lemma concat_fmap_last f cks :
  (∀ c, last (f c) = last c) → last (concat (f <$> cks)) = last (concat cks).
Proof.
  intros Hf. induction cks as [|c cks IH]; [done|]. cbn.
  rewrite !last_app, IH, Hf. done.
Qed.

Lemma concat_fmap_id f cks :
  (∀ c, c ∈ cks → f c = c) → concat (f <$> cks) = concat cks.
Proof.
  intros Hf. induction cks as [|c cks IH]; [done|]. cbn.
  rewrite Hf by left. rewrite IH; [done|]. intros c' Hc'. apply Hf. by right.
Qed.
End Concat.

(** ** The partition into chunks *)

Lemma chunks_lookup {A} (points : list A) cs cks j c :
  (1 ≤ cs)%Z → chunks points cs = Return cks → cks !! j = Some c →
  c = take (Z.to_nat cs) (drop (j * Z.to_nat cs) points) ∧
  j * Z.to_nat cs < length points.
Proof.
  intros Hcs. rewrite chunks_pos by done. intros [= <-] Hj.
  rewrite <-list_fmap_compose, list_lookup_fmap in Hj.
  destruct (seq _ _ !! j) as [i|] eqn:Hi; [|done].
  apply lookup_seq in Hi as [-> Hlt]. cbn in Hj. injection Hj as <-.
  split; [|by apply chunk_start_lt].
  unfold slice. f_equal. lia.
Qed.

(** X1: for a chunk size of at least 1 the list comprehension cuts the
    input into a partition: the chunks, joined in order, are the input;
    there are [ceil(n / chunk_size)] of them; each holds at least one point
    and at most [chunk_size], and each but the last exactly [chunk_size]. *)
Theorem chunks_partition {A} (points : list A) (chunk_size : Z) :
  (1 ≤ chunk_size)%Z →
  ∃ cks,
    chunks points chunk_size = Return cks ∧
    concat cks = points ∧
    Z.of_nat (length cks)
    = ((Z.of_nat (length points) + chunk_size - 1) / chunk_size)%Z ∧
    ∀ j c, cks !! j = Some c →
      (1 ≤ Z.of_nat (length c) ≤ chunk_size)%Z ∧
      (S j < length cks → Z.of_nat (length c) = chunk_size).
Proof.
  intros Hcs.
  destruct (chunks points chunk_size) as [cks| |] eqn:Hck;
    [|by rewrite chunks_pos in Hck..].
  exists cks. split_and!; [done|by eapply chunks_concat|by apply chunks_length|].
  intros j c Hj.
  destruct (chunks_lookup _ _ _ _ _ Hcs Hck Hj) as [-> Hlt].
  rewrite length_take, length_drop. split; [lia|]. intros Hnext.
  destruct (lookup_lt_is_Some_2 cks (S j) Hnext) as [c' Hj'].
  destruct (chunks_lookup _ _ _ _ _ Hcs Hck Hj') as [_ Hlt'].
  lia.
Qed.

Lemma chunks_partition_witness :
  ∃ cks,
    chunks [1; 2; 3; 4; 5; 6; 7] 3 = Return cks ∧
    concat cks = [1; 2; 3; 4; 5; 6; 7] ∧
    Z.of_nat (length cks) = ((7 + 3 - 1) / 3)%Z ∧
    ∀ j c, cks !! j = Some c →
      (1 ≤ Z.of_nat (length c) ≤ 3)%Z ∧
      (S j < length cks → Z.of_nat (length c) = 3%Z).
Proof. apply (chunks_partition [1; 2; 3; 4; 5; 6; 7] 3). lia. Defined.

(** ** [rdp_threadpool] *)

(** On a non-empty input with a valid chunk size and pool width the call
    returns the reduced chunks, joined. *)
Lemma rdp_threadpool_returns points epsilon chunk_size max_workers sched :
  points ≠ [] → (1 ≤ chunk_size)%Z → (1 ≤ max_workers)%Z →
  ∃ cks,
    chunks points chunk_size = Return cks ∧ concat cks = points ∧
    rdp_threadpool points epsilon chunk_size max_workers sched
    = Return (concat ((λ c, classic_rdp c epsilon) <$> cks)).
Proof.
  intros Hne Hcs Hmw.
  destruct (chunks points chunk_size) as [cks| |] eqn:Hck;
    [|by rewrite chunks_pos in Hck..].
  pose proof (chunks_concat points chunk_size cks Hcs Hck) as Hcat.
  exists cks. split_and!; [done..|].
  rewrite (rdp_threadpool_chunks _ _ _ _ _ cks) by done.
  destruct cks; [by subst points|done].
Qed.

(** X2: a chunk size of 0 or below makes [rdp_threadpool] raise
    [ValueError], whatever the points, the epsilon, the pool width and the
    schedule: 0 is refused by [range], and a negative step gives no chunk
    at all, which [np.vstack] (or, for a width below 1, the pool
    constructor before it) refuses. *)
Theorem rdp_threadpool_bad_chunk_size points epsilon chunk_size max_workers
    sched :
  (chunk_size ≤ 0)%Z →
  rdp_threadpool points epsilon chunk_size max_workers sched
  = Raise ValueError.
Proof.
  intros Hcs. unfold rdp_threadpool, chunks, py_range.
  destruct (Z.eqb_spec chunk_size 0) as [->|Hne]; [done|].
  destruct (Z.ltb_spec chunk_size 0) as [_|?]; [|lia]. cbn [bind fmap list_fmap].
  unfold Executor.ThreadPoolExecutor.
  by destruct (max_workers <=? 0)%Z.
Qed.

Lemma rdp_threadpool_bad_chunk_size_witness :
  rdp_threadpool [(0, 0); (1, 1)]%float 0.5%float 0 4 [] = Raise ValueError ∧
  rdp_threadpool [(0, 0); (1, 1)]%float 0.5%float (-3) 4 [0]
  = Raise ValueError.
Proof. split; apply rdp_threadpool_bad_chunk_size; lia. Defined.

(** X3: on a non-empty input, with a chunk size and a pool width of at
    least 1, [rdp_threadpool] returns an ordered subsequence of the input
    that starts with its first point, ends with its last point and is no
    longer than the input, whatever the schedule. *)
Theorem rdp_threadpool_subsequence points epsilon chunk_size max_workers
    sched :
  points ≠ [] → (1 ≤ chunk_size)%Z → (1 ≤ max_workers)%Z →
  ∃ r,
    rdp_threadpool points epsilon chunk_size max_workers sched = Return r ∧
    r `sublist_of` points ∧
    head r = head points ∧ last r = last points ∧
    length r ≤ length points.
Proof.
  intros Hne Hcs Hmw.
  destruct (rdp_threadpool_returns points epsilon chunk_size max_workers sched)
    as (cks & _ & Hcat & ->); [done..|].
  assert (concat ((λ c, classic_rdp c epsilon) <$> cks)
            `sublist_of` concat cks) as Hsub
    by (apply concat_fmap_sublist; intros c; apply rdp_sublist).
  eexists. split; [done|]. rewrite <-Hcat.
  split_and!; [done| | |by apply sublist_length].
  - apply concat_fmap_head. intros c. apply rdp_head.
  - apply concat_fmap_last. intros c. apply rdp_last.
Qed.

Lemma rdp_threadpool_subsequence_witness :
  let points := [(0, 0); (1, 1); (2, 0); (3, 5); (4, 5.1); (5, 5)]%float in
  ∃ r,
    rdp_threadpool points 0.5%float 3 4 [1; 0] = Return r ∧
    r `sublist_of` points ∧
    head r = head points ∧ last r = last points ∧
    length r ≤ length points.
Proof. cbv zeta. apply rdp_threadpool_subsequence; [done|lia|lia]. Defined.

(** X4: with a chunk size of 1 or 2 no chunk has an interior point, and
    [rdp_threadpool] returns the input as it is: nothing is simplified,
    whatever the epsilon. *)
Theorem rdp_threadpool_small_chunks points epsilon chunk_size max_workers
    sched :
  points ≠ [] → (1 ≤ chunk_size ≤ 2)%Z → (1 ≤ max_workers)%Z →
  rdp_threadpool points epsilon chunk_size max_workers sched = Return points.
Proof.
  intros Hne Hcs Hmw.
  destruct (rdp_threadpool_returns points epsilon chunk_size max_workers sched)
    as (cks & Hck & Hcat & ->); [done|lia|done|].
  f_equal. rewrite <-Hcat. apply concat_fmap_id. intros c Hc.
  apply rdp_short.
  destruct (chunks_bounds points chunk_size cks c) as [_ Hle]; [lia|done..|lia].
Qed.

Lemma rdp_threadpool_small_chunks_witness :
  let points := [(0, 0); (1, 0); (2, 0); (3, 0); (4, 0)]%float in
  rdp_threadpool points 100%float 2 4 [] = Return points.
Proof. cbv zeta. apply rdp_threadpool_small_chunks; [done|lia|lia]. Defined.

Lemma concat_fmap_length_ge {A} (f : list A → list A) (cks : list (list A)) :
  (∀ c, 2 ≤ length c → 2 ≤ length (f c)) →
  ∀ q, (∀ j, j < q → ∃ c, cks !! j = Some c ∧ 2 ≤ length c) →
       2 * q ≤ length (concat (f <$> cks)).
Proof.
  intros Hf. induction cks as [|c cks IH]; intros q Hq.
  - destruct q; [cbn; lia|]. by destruct (Hq 0) as (c & ? & _); [lia|].
  - destruct q as [|q]; [lia|]. cbn. rewrite length_app.
    destruct (Hq 0) as (c0 & [= <-] & Hc); [lia|].
    specialize (IH q). specialize (Hf c Hc).
    assert (2 * q ≤ length (concat (f <$> cks))); [|lia].
    apply IH. intros j Hj. apply (Hq (S j)). lia.
Qed.

(** The chunks that lie wholly inside the input hold [chunk_size] points
    each. *)
Lemma chunks_full {A} (points : list A) cs cks j :
  (1 ≤ cs)%Z → chunks points cs = Return cks →
  j < length points / Z.to_nat cs →
  ∃ c, cks !! j = Some c ∧ length c = Z.to_nat cs.
Proof.
  intros Hcs Hck Hj.
  pose proof (Nat.Div0.mul_div_le (length points) (Z.to_nat cs)) as Hdiv.
  assert (S j * Z.to_nat cs ≤ length points) as Hfull by nia.
  assert (j < length cks) as Hlt.
  { apply Nat2Z.inj_lt. rewrite (chunks_length points cs cks) by done.
    apply Z.lt_le_trans with (Z.of_nat (S j)); [lia|].
    apply Z.div_le_lower_bound; [lia|]. nia. }
  destruct (lookup_lt_is_Some_2 cks j Hlt) as [c Hc].
  exists c. split; [done|].
  destruct (chunks_lookup _ _ _ _ _ Hcs Hck Hc) as [-> _].
  rewrite length_take, length_drop. lia.
Qed.

(** X5: with a chunk size of at least 2, [rdp_threadpool] keeps both end
    points of every chunk: its result is the reduced chunks joined, each
    reduced chunk starts with the first and ends with the last point of
    its chunk, and has two points or more when the chunk has.  So the
    result holds at least [2 * floor(n / chunk_size)] points however
    large the epsilon: the chunk size bounds what the simplification can
    remove. *)
Theorem rdp_threadpool_keeps_chunk_ends points epsilon chunk_size
    max_workers sched :
  points ≠ [] → (2 ≤ chunk_size)%Z → (1 ≤ max_workers)%Z →
  ∃ cks rs,
    chunks points chunk_size = Return cks ∧
    rdp_threadpool points epsilon chunk_size max_workers sched
    = Return (concat rs) ∧
    Forall2 (λ c r, head r = head c ∧ last r = last c ∧
                    (2 ≤ length c → 2 ≤ length r)) cks rs ∧
    2 * (length points / Z.to_nat chunk_size) ≤ length (concat rs).
Proof.
  intros Hne Hcs Hmw.
  destruct (rdp_threadpool_returns points epsilon chunk_size max_workers sched)
    as (cks & Hck & _ & ->); [done|lia|done|].
  exists cks, ((λ c, classic_rdp c epsilon) <$> cks).
  split_and!; [done..| |].
  - apply Forall2_fmap_r, Forall_Forall2_diag, Forall_forall.
    intros c _. split_and!;
      [apply rdp_head|apply rdp_last|apply rdp_length_ge].
  - apply concat_fmap_length_ge; [intros c; apply rdp_length_ge|].
    intros j Hj.
    destruct (chunks_full points chunk_size cks j) as (c & Hc & Hlen);
      [lia|done..|].
    exists c. split; [done|lia].
Qed.

Lemma rdp_threadpool_keeps_chunk_ends_witness :
  let points :=
    [(0, 0); (1, 0); (2, 0); (3, 0); (4, 0); (5, 0); (6, 0); (7, 0)]%float in
  ∃ cks rs,
    chunks points 4 = Return cks ∧
    rdp_threadpool points infinity 4 4 [] = Return (concat rs) ∧
    Forall2 (λ c r, head r = head c ∧ last r = last c ∧
                    (2 ≤ length c → 2 ≤ length r)) cks rs ∧
    2 * (length points / Z.to_nat 4) ≤ length (concat rs).
Proof.
  cbv zeta. apply rdp_threadpool_keeps_chunk_ends; [done|lia|lia].
Defined.

(** ** [parallel_rdp_algorithm] *)

Section Tasks.
Variable data_chunks : list (list Point).
Variable epsilon : float.
Implicit Types (st : tasks) (i fut : nat).

Lemma next_future_complete {R} (ex : Executor.pool R) fut :
  Executor.next_future (Executor.complete ex fut) = Executor.next_future ex.
Proof. unfold Executor.complete. by destruct (_ !! _). Qed.

Lemma tasks_inv_start st i :
  tasks_inv data_chunks epsilon st →
  tasks_inv data_chunks epsilon (start_task data_chunks epsilon st i).
Proof.
  intros Hinv. unfold start_task.
  destruct (started st !! i) as [f|] eqn:Hst; [done|].
  destruct (data_chunks !! i) as [chunk|] eqn:Hc; [|done].
  cbn. intros j fut Hj. cbn in Hj |- *.
  destruct (decide (i = j)) as [<-|Hne].
  - rewrite lookup_insert_eq in Hj. injection Hj as <-.
    split; [lia|]. exists chunk. split; [done|].
    apply (ExecutorFacts.holds_submit (global st)).
  - rewrite lookup_insert_ne in Hj by done.
    destruct (Hinv j fut Hj) as (Hlt & c & Hc' & Hh).
    split; [lia|]. exists c. split; [done|].
    by apply (ExecutorFacts.holds_submit_other (global st)).
Qed.

Lemma tasks_inv_finish st fut :
  tasks_inv data_chunks epsilon st →
  tasks_inv data_chunks epsilon
    (Tasks (Executor.complete (global st) fut) (started st)).
Proof.
  intros Hinv j f Hj. cbn in *.
  destruct (Hinv j f Hj) as (Hlt & c & Hc & Hh).
  rewrite next_future_complete. split; [done|].
  exists c. split; [done|]. by apply ExecutorFacts.holds_complete.
Qed.

Lemma tasks_inv_events st events :
  tasks_inv data_chunks epsilon st →
  tasks_inv data_chunks epsilon (foldl (step data_chunks epsilon) st events).
Proof.
  revert st. induction events as [|ev events IH]; intros st Hinv; [done|].
  cbn. apply IH. destruct ev; [by apply tasks_inv_start|].
  by apply tasks_inv_finish.
Qed.

Lemma start_task_started st i chunk :
  data_chunks !! i = Some chunk →
  is_Some (started (start_task data_chunks epsilon st i) !! i).
Proof.
  intros Hc. unfold start_task.
  destruct (started st !! i) as [f|] eqn:Hst; [by rewrite Hst|].
  rewrite Hc. cbn. by rewrite lookup_insert_eq.
Qed.

Lemma task_result_spec st i chunk :
  tasks_inv data_chunks epsilon st → data_chunks !! i = Some chunk →
  (task_result data_chunks epsilon st i).1
  = Return (classic_rdp chunk epsilon) ∧
  tasks_inv data_chunks epsilon (task_result data_chunks epsilon st i).2.
Proof.
  intros Hinv Hc. unfold task_result.
  pose proof (tasks_inv_start st i Hinv) as Hinv'.
  destruct (start_task_started st i chunk Hc) as [fut Hfut].
  rewrite Hfut.
  destruct (Hinv' i fut Hfut) as (_ & c & Hc' & Hh).
  assert (c = chunk) as -> by congruence.
  pose proof (ExecutorFacts.result_holds _ _ _ Hh) as Hres.
  change (Executor.result (global (start_task data_chunks epsilon st i)) fut)
    with ((Executor.result
             (global (start_task data_chunks epsilon st i)) fut).1,
          Executor.complete
            (global (start_task data_chunks epsilon st i)) fut).
  cbn [fst snd]. split; [done|]. by apply tasks_inv_finish.
Qed.

Lemma task_results_spec futures : ∀ st,
  tasks_inv data_chunks epsilon st →
  ∀ chunks,
    Forall2 (λ i chunk, data_chunks !! i = Some chunk) futures chunks →
    (task_results data_chunks epsilon st futures).1
    = Return ((λ c, classic_rdp c epsilon) <$> chunks).
Proof.
  induction futures as [|i futures IH]; intros st Hinv cks Hall.
  - by apply Forall2_nil_inv_l in Hall as ->.
  - apply Forall2_cons_inv_l in Hall as (c & cks' & Hc & Hall & ->).
    cbn [task_results].
    destruct (task_result_spec st i c Hinv Hc) as [Hr Hinv1].
    destruct (task_result data_chunks epsilon st i) as [r st1].
    cbn in Hr, Hinv1. subst r.
    specialize (IH st1 Hinv1 cks' Hall).
    destruct (task_results data_chunks epsilon st1 futures) as [rs st2].
    cbn in IH. subst rs. done.
Qed.
End Tasks.

(** What the function returns once the chunks are known: the reduced
    chunks, joined, for every state of the process-wide pool and every
    sequence of events. *)
Lemma parallel_rdp_algorithm_chunks executor events data_chunks epsilon :
  (let st := foldl (step data_chunks epsilon) (Tasks executor ∅) events in
   (task_results data_chunks epsilon st (seq 0 (length data_chunks))).1)
  = Return ((λ c, classic_rdp c epsilon) <$> data_chunks).
Proof.
  cbv zeta. apply task_results_spec.
  - apply tasks_inv_events. by intros i fut Hi.
  - apply Forall2_same_length_lookup_2; [by rewrite length_seq|].
    intros j i c Hi Hc. by apply lookup_seq in Hi as [-> _].
Qed.

Lemma parallel_rdp_algorithm_returns executor events data epsilon chunk_size
    data_chunks :
  algorithm_chunks data chunk_size = Return data_chunks →
  (parallel_rdp_algorithm executor events data epsilon chunk_size).1
  = Return (concat ((λ c, classic_rdp c epsilon) <$> data_chunks)).
Proof.
  intros Hdc. unfold parallel_rdp_algorithm.
  change (match chunk_size with
          | Some cs => if (cs =? 0)%Z then Return [data] else chunks data cs
          | None => Return [data]
          end) with (algorithm_chunks data chunk_size).
  rewrite Hdc. cbv zeta.
  pose proof (parallel_rdp_algorithm_chunks executor events data_chunks epsilon)
    as Hres. cbv zeta in Hres.
  destruct (task_results _ _ _ _) as [rs st]. cbn in Hres. by subst rs.
Qed.

(** X6: without a chunk size, or with the chunk size 0, the input is one
    chunk, and [parallel_rdp_algorithm] returns what [classic_rdp] returns
    on the whole input, for every state of the process-wide pool and every
    interleaving of the workers. *)
Theorem parallel_rdp_algorithm_one_chunk executor events data epsilon
    chunk_size :
  chunk_size = None ∨ chunk_size = Some 0%Z →
  (parallel_rdp_algorithm executor events data epsilon chunk_size).1
  = Return (classic_rdp data epsilon).
Proof.
  intros Hcs.
  rewrite (parallel_rdp_algorithm_returns _ _ _ _ _ [data]).
  - cbn. by rewrite app_nil_r.
  - by destruct Hcs as [-> | ->].
Qed.

Lemma parallel_rdp_algorithm_one_chunk_witness :
  let data := [(0, 0); (1, 1); (2, 0); (3, 5); (4, 5.1); (5, 5)]%float in
  (parallel_rdp_algorithm executor [worker_finishes 0; task_starts 0]
     data 0.5%float None).1
  = Return (classic_rdp data 0.5%float).
Proof. cbv zeta. apply parallel_rdp_algorithm_one_chunk. by left. Defined.

(** X7: with a chunk size of at least 1, [parallel_rdp_algorithm] returns
    the reduced chunks joined in chunk order, whatever the state of the
    process-wide pool and the interleaving of the workers; on a non-empty
    input this is exactly what [rdp_threadpool] returns for the same chunk
    size, for every pool width of at least 1 and every schedule. *)
Theorem parallel_rdp_algorithm_concat executor events data epsilon
    chunk_size :
  (1 ≤ chunk_size)%Z →
  ∃ cks,
    chunks data chunk_size = Return cks ∧ concat cks = data ∧
    (parallel_rdp_algorithm executor events data epsilon (Some chunk_size)).1
    = Return (concat ((λ c, classic_rdp c epsilon) <$> cks)) ∧
    ∀ max_workers sched,
      data ≠ [] → (1 ≤ max_workers)%Z →
      rdp_threadpool data epsilon chunk_size max_workers sched
      = (parallel_rdp_algorithm executor events data epsilon
           (Some chunk_size)).1.
Proof.
  intros Hcs.
  destruct (chunks data chunk_size) as [cks| |] eqn:Hck;
    [|by rewrite chunks_pos in Hck..].
  assert ((parallel_rdp_algorithm executor events data epsilon
             (Some chunk_size)).1
          = Return (concat ((λ c, classic_rdp c epsilon) <$> cks))) as Hres.
  { apply parallel_rdp_algorithm_returns. cbn.
    by destruct (Z.eqb_spec chunk_size 0) as [?|_]; [lia|]. }
  exists cks. split_and!; [done|by eapply chunks_concat|done|].
  intros max_workers sched Hne Hmw. rewrite Hres.
  destruct (rdp_threadpool_returns data epsilon chunk_size max_workers sched)
    as (cks' & Hck' & _ & ->); [done..|].
  congruence.
Qed.

Lemma parallel_rdp_algorithm_concat_witness :
  let data := [(0, 0); (1, 1); (2, 0); (3, 5); (4, 5.1); (5, 5)]%float in
  let events := [task_starts 1; worker_finishes 0; task_starts 0] in
  ∃ cks,
    chunks data 3 = Return cks ∧ concat cks = data ∧
    (parallel_rdp_algorithm executor events data 0.5%float (Some 3%Z)).1
    = Return (concat ((λ c, classic_rdp c 0.5%float) <$> cks)) ∧
    ∀ max_workers sched,
      data ≠ [] → (1 ≤ max_workers)%Z →
      rdp_threadpool data 0.5%float 3 max_workers sched
      = (parallel_rdp_algorithm executor events data 0.5%float (Some 3%Z)).1.
Proof. cbv zeta. apply parallel_rdp_algorithm_concat. lia. Defined.

(** X8 ([parallel_rdp_algorithm], lines 39-62).  Where [rdp_threadpool]
    raises, [parallel_rdp_algorithm] returns the empty list: on the empty
    input, for every chunk size (absent, zero, positive or negative), and
    on every input when the chunk size is negative ([range] with a
    negative step from 0 is empty, so no task is submitted).  This holds
    for every state of the process-wide pool and every interleaving. *)
Theorem parallel_rdp_algorithm_empty executor events data epsilon
    chunk_size :
  data = [] ∨ (∃ cs, chunk_size = Some cs ∧ (cs < 0)%Z) →
  (parallel_rdp_algorithm executor events data epsilon chunk_size).1
  = Return [].
Proof.
  intros [->|(cs & -> & Hcs)].
  - destruct chunk_size as [cs|].
    + destruct (Z.eqb_spec cs 0) as [->|Hne].
      * by rewrite (parallel_rdp_algorithm_returns _ _ _ _ _ [[]]).
      * rewrite (parallel_rdp_algorithm_returns _ _ _ _ _ []); [done|].
        cbn. destruct (Z.eqb_spec cs 0) as [?|_]; [done|].
        destruct (Z.lt_ge_cases cs 0) as [Hneg|Hpos];
          [|apply chunks_nil; lia].
        unfold chunks, py_range.
        destruct (Z.eqb_spec cs 0) as [?|_]; [done|].
        by destruct (Z.ltb_spec cs 0) as [_|?]; [|lia].
    + by rewrite (parallel_rdp_algorithm_returns _ _ _ _ _ [[]]).
  - rewrite (parallel_rdp_algorithm_returns _ _ _ _ _ []); [done|].
    cbn. unfold chunks, py_range.
    destruct (Z.eqb_spec cs 0) as [?|_]; [lia|].
    by destruct (Z.ltb_spec cs 0) as [_|?]; [|lia].
Qed.

Lemma parallel_rdp_algorithm_empty_witness :
  (parallel_rdp_algorithm executor [] [(0, 0); (1, 1); (2, 0)]%float 0.5%float
     (Some (-2)%Z)).1 = Return [] ∧
  (parallel_rdp_algorithm executor [task_starts 0] [] 0.5%float
     (Some 4%Z)).1 = Return [].
Proof.
  split.
  - apply parallel_rdp_algorithm_empty. right. exists (-2)%Z. by split.
  - apply parallel_rdp_algorithm_empty. by left.
Defined.

(** ** The estimator on the points of the script *)

Lemma of_uint63_never_negative n : never_negative (of_uint63 n).
Proof.
  unfold never_negative. rewrite of_uint63_spec.
  pose proof (Uint63.to_Z_bounded n) as [H _].
  destruct (Uint63.to_Z n) as [|m|m]; [done| |lia].
  cbn [binary_normalize]. unfold binary_round.
  destruct (shl_align _ _ _) as [mz ez]. apply binary_round_aux_nonneg.
Qed.

Lemma sub_zero_never_negative a : never_negative a → never_negative (a - 0).
Proof.
  unfold never_negative. rewrite sub_spec.
  change (Prim2SF 0) with (S754_zero false).
  by destruct (Prim2SF a) as [[]|[]| |[] m e].
Qed.

Lemma script_points_head second_row :
  head (script_points second_row) = (λ v, (0%float, v)) <$> head second_row.
Proof. by destruct second_row. Qed.

Lemma script_points_last second_row :
  last (script_points second_row)
  = (λ v, (float_of_nat (pred (length second_row)), v)) <$> last second_row.
Proof.
  unfold script_points.
  by rewrite !last_lookup, list_lookup_imap, length_imap.
Qed.

(** The sign of the estimate is that of the computed [x2 - x1]. *)
Lemma epsilon_formula_sign x1 y1 x2 y2 (points : list Point) :
  never_negative (x2 - x1) →
  never_negative
    (epsilon_formula (doubled_denominator x1 y1 x2 y2) x1 y1 x2 y2 points).
Proof.
  intros Hdx. unfold epsilon_formula.
  apply div_never_negative; [|done].
  apply mul_never_negative; [|done].
  apply py_sum_never_negative, Forall_fmap, Forall_forall. intros q _.
  apply div_never_negative;
    [apply abs_never_negative|apply pow_half_never_negative].
Qed.

(** On the points of the script the estimator evaluates its formula with
    [x1 = 0] and [x2] the last row number. *)
Lemma script_epsilon (second_row : list float) :
  second_row ≠ [] →
  ∃ y1 y2,
    let x2 := float_of_nat (pred (length second_row)) in
    calculate_epsilon (script_points second_row)
    = Return (epsilon_formula (doubled_denominator 0 y1 x2 y2) 0 y1 x2 y2
                (script_points second_row)).
Proof.
  intros Hne. destruct second_row as [|y1 rest] eqn:Hrow; [done|].
  rewrite <-Hrow in *.
  destruct (last second_row) as [y2|] eqn:Hlast;
    [|apply last_None in Hlast; congruence].
  exists y1, y2. apply calculate_epsilon_formula.
  - by rewrite script_points_head, Hrow.
  - by rewrite script_points_last, Hlast.
Qed.

Lemma script_epsilon_sign (second_row : list float) y1 y2 :
  let x2 := float_of_nat (pred (length second_row)) in
  (epsilon_formula (doubled_denominator 0 y1 x2 y2) 0 y1 x2 y2
     (script_points second_row) <? 0)%float = false.
Proof.
  apply never_negative_ltb, epsilon_formula_sign.
  apply sub_zero_never_negative, of_uint63_never_negative.
Qed.

Lemma script_points_length second_row :
  length (script_points second_row) = length second_row.
Proof. apply length_imap. Qed.

Lemma script_points_nonempty second_row :
  second_row ≠ [] → script_points second_row ≠ [].
Proof. by destruct second_row. Qed.

(** X9 ([calculate_epsilon], lines 82-100, on the points built at line
    142).  On the points of the script, whose x-coordinates are the row
    numbers from 0, the estimator raises nothing for a column of one value
    or more, and the epsilon it returns is never negative: it is at least
    0, or a NaN. *)
Theorem script_epsilon_never_negative (second_row : list float) :
  second_row ≠ [] →
  ∃ epsilon,
    calculate_epsilon (script_points second_row) = Return epsilon ∧
    (epsilon <? 0)%float = false.
Proof.
  intros Hne. destruct (script_epsilon second_row Hne) as (y1 & y2 & ->).
  eexists. split; [done|]. apply script_epsilon_sign.
Qed.

Lemma script_epsilon_never_negative_witness :
  ∃ epsilon,
    calculate_epsilon (script_points [10; 5; 0]%float) = Return epsilon ∧
    (epsilon <? 0)%float = false.
Proof. by apply script_epsilon_never_negative. Defined.

(** *** A NaN estimate *)

Lemma negative_radicand r :
  (r <? 0)%float = true → (r =? neg_infinity)%float = false →
  Prim2SF (pow_half r) = S754_nan.
Proof.
  unfold pow_half.
  rewrite FloatAxioms.ltb_spec, !FloatAxioms.eqb_spec.
  change (Prim2SF 0) with (S754_zero false).
  change (Prim2SF neg_infinity) with (S754_infinity true).
  intros Hlt Hinf.
  destruct (SFeqb (Prim2SF r) (S754_zero false)) eqn:H0.
  - by destruct (Prim2SF r) as [[]|[]| |[] m e].
  - rewrite Hinf, sqrt_spec.
    by destruct (Prim2SF r) as [[]|[]| |[] m e].
Qed.

Lemma div_by_nan a b : Prim2SF b = S754_nan → Prim2SF (a / b) = S754_nan.
Proof.
  intros Hb. rewrite div_spec, Hb. by destruct (Prim2SF a) as [[]|[]| |[] m e].
Qed.

Lemma nan_div a b : Prim2SF a = S754_nan → Prim2SF (a / b) = S754_nan.
Proof. intros Ha. by rewrite div_spec, Ha. Qed.

Lemma nan_mul a b : Prim2SF a = S754_nan → Prim2SF (a * b) = S754_nan.
Proof. intros Ha. by rewrite mul_spec, Ha. Qed.

Lemma nan_add a b : Prim2SF a = S754_nan → Prim2SF (a + b) = S754_nan.
Proof. intros Ha. by rewrite add_spec, Ha. Qed.

Lemma add_nan a b : Prim2SF b = S754_nan → Prim2SF (a + b) = S754_nan.
Proof.
  intros Hb. rewrite add_spec, Hb. by destruct (Prim2SF a) as [[]|[]| |[] m e].
Qed.

Lemma foldl_add_nan U : ∀ acc,
  Prim2SF acc = S754_nan → Prim2SF (foldl PrimFloat.add acc U) = S754_nan.
Proof.
  induction U as [|u U IH]; intros acc Hacc; [done|].
  cbn. by apply IH, nan_add.
Qed.

(** One NaN term makes the sum a NaN. *)
Lemma py_sum_nan u U :
  Prim2SF u = S754_nan → Prim2SF (py_sum (u :: U)) = S754_nan.
Proof. intros Hu. unfold py_sum. cbn. by apply foldl_add_nan, add_nan. Qed.

Lemma Prim2SF_nan v : Prim2SF v = S754_nan → v = nan.
Proof. intros Hv. by rewrite <-(SF2Prim_Prim2SF v), Hv. Qed.

(** X10 ([calculate_epsilon], lines 82-100).  The denominator is the
    square root of [(y2 - y1) * 2 + (x2 - x1) * 2], which is negative as
    soon as the last value lies below the first by more than the
    x-distance: whenever that number is negative and not minus infinity,
    the estimator returns NaN on every polyline, whatever the points
    between the two ends. *)
Theorem calculate_epsilon_nan (points : list Point) (x1 y1 x2 y2 : float) :
  head points = Some (x1, y1) → last points = Some (x2, y2) →
  ((y2 - y1) * 2 + (x2 - x1) * 2 <? 0)%float = true →
  ((y2 - y1) * 2 + (x2 - x1) * 2 =? neg_infinity)%float = false →
  calculate_epsilon points = Return nan.
Proof.
  intros Hhd Hlast Hneg Hinf.
  rewrite (calculate_epsilon_formula _ _ _ _ _ Hhd Hlast). f_equal.
  apply Prim2SF_nan. unfold epsilon_formula.
  apply nan_div, nan_mul.
  destruct points as [|q points]; [done|].
  rewrite fmap_cons. apply py_sum_nan, div_by_nan.
  by apply negative_radicand.
Qed.

Lemma calculate_epsilon_nan_witness :
  calculate_epsilon [(0, 10); (1, 7); (2, 8); (3, 0)]%float = Return nan.
Proof. by apply (calculate_epsilon_nan _ 0 10 3 0)%float. Defined.

(** ** A NaN epsilon in the reducer *)

Lemma is_nan_Prim2SF v : is_nan v = true → Prim2SF v = S754_nan.
Proof.
  unfold is_nan. rewrite FloatAxioms.eqb_spec. unfold SFeqb.
  destruct (Prim2SF v) as [[]|[]| |[] m e]; cbn [SFcompare]; try done.
  all: by rewrite Z.compare_refl, Pos.compare_cont_refl.
Qed.

Lemma float_gt_nan d eps : is_nan eps = true → float_gt d eps = false.
Proof.
  intros Hnan. unfold float_gt.
  by rewrite FloatAxioms.ltb_spec, (is_nan_Prim2SF _ Hnan).
Qed.

(** X11 ([classic_rdp], lines 14-19).  No distance exceeds a NaN epsilon
    (the comparison [d > epsilon] is false), so with the NaN that
    [calculate_epsilon] can return the reducer keeps the two end points of
    a polyline and drops every point between them. *)
Theorem classic_rdp_nan_epsilon (a b : Point) (mid : list Point)
    (eps : float) :
  is_nan eps = true → classic_rdp (a :: mid ++ [b]) eps = [a; b].
Proof.
  intros Hnan. unfold classic_rdp.
  destruct mid as [|p mid]; [by apply rdp_short|].
  apply rdp_all_near; [done|]. intros q _. by apply float_gt_nan.
Qed.

Lemma classic_rdp_nan_epsilon_witness :
  classic_rdp ((0, 10) :: [(1, 7); (2, 80)] ++ [(3, 0)])%float nan
  = [(0, 10); (3, 0)]%float.
Proof. by apply classic_rdp_nan_epsilon. Defined.

(** ** The script *)

(** X12 (the script, lines 142-160).  On a column of one value or more the
    three computations of the script all return, for every schedule of the
    pool: the epsilon is never negative, and the serial and the parallel
    result are both ordered subsequences of the points that keep the first
    and the last point. *)
Theorem script_compute_returns (second_row : list float) (sched : list nat) :
  second_row ≠ [] →
  ∃ epsilon classic_points parallelized_points,
    script_compute second_row sched
    = Return (epsilon, classic_points, parallelized_points) ∧
    (epsilon <? 0)%float = false ∧
    classic_points `sublist_of` script_points second_row ∧
    head classic_points = head (script_points second_row) ∧
    last classic_points = last (script_points second_row) ∧
    parallelized_points `sublist_of` script_points second_row ∧
    head parallelized_points = head (script_points second_row) ∧
    last parallelized_points = last (script_points second_row).
Proof.
  intros Hne. unfold script_compute.
  destruct (script_epsilon second_row Hne) as (y1 & y2 & ->). cbn [bind].
  set (epsilon := epsilon_formula _ _ _ _ _ _).
  destruct (rdp_threadpool_returns (script_points second_row) epsilon
              (find_optimal_chunk_size (script_points second_row)) 4 sched)
    as (cks & _ & Hcat & ->);
    [by apply script_points_nonempty|apply find_optimal_chunk_size_pos
    |lia|].
  cbn [bind]. eexists _, _, _. split; [done|].
  split_and!.
  - apply script_epsilon_sign.
  - apply rdp_sublist.
  - apply rdp_head.
  - apply rdp_last.
  - rewrite <-Hcat. apply concat_fmap_sublist. intros c. apply rdp_sublist.
  - rewrite <-Hcat. apply concat_fmap_head. intros c. apply rdp_head.
  - rewrite <-Hcat. apply concat_fmap_last. intros c. apply rdp_last.
Qed.

Lemma script_compute_returns_witness :
  ∃ epsilon classic_points parallelized_points,
    script_compute [10; 5; 0]%float [1; 0]
    = Return (epsilon, classic_points, parallelized_points) ∧
    (epsilon <? 0)%float = false ∧
    classic_points `sublist_of` script_points [10; 5; 0]%float ∧
    head classic_points = head (script_points [10; 5; 0]%float) ∧
    last classic_points = last (script_points [10; 5; 0]%float) ∧
    parallelized_points `sublist_of` script_points [10; 5; 0]%float ∧
    head parallelized_points = head (script_points [10; 5; 0]%float) ∧
    last parallelized_points = last (script_points [10; 5; 0]%float).
Proof. by apply script_compute_returns. Defined.

(** X13 (the script, lines 142-160).  For a file of at most 100 rows the
    planner answers 1, which the script passes on as the chunk size, so
    every chunk is a single point and the parallel result is the list of
    points itself: nothing is simplified. *)
Theorem script_compute_small_file (second_row : list float)
    (sched : list nat) :
  second_row ≠ [] → length second_row ≤ 100 →
  ∃ epsilon classic_points,
    script_compute second_row sched
    = Return (epsilon, classic_points, script_points second_row).
Proof.
  intros Hne Hlen. unfold script_compute.
  destruct (script_epsilon second_row Hne) as (y1 & y2 & ->). cbn [bind].
  set (epsilon := epsilon_formula _ _ _ _ _ _).
  assert (find_optimal_chunk_size (script_points second_row) = 1%Z) as ->.
  { unfold find_optimal_chunk_size. rewrite script_points_length.
    by destruct (Z.leb_spec (Z.of_nat (length second_row)) 100); [|lia]. }
  destruct (rdp_threadpool_returns (script_points second_row) epsilon
              1 4 sched) as (cks & Hck & Hcat & ->);
    [by apply script_points_nonempty|lia|lia|].
  cbn [bind]. eexists _, _. do 3 f_equal.
  rewrite <-Hcat. apply concat_fmap_id. intros c Hc.
  apply rdp_short.
  destruct (chunks_bounds (script_points second_row) 1 cks c)
    as [_ Hle]; [lia|done..|lia].
Qed.

Lemma script_compute_small_file_witness :
  ∃ epsilon classic_points,
    script_compute [10; 5; 0; 7]%float []
    = Return (epsilon, classic_points, script_points [10; 5; 0; 7]%float).
Proof. apply script_compute_small_file; [done|cbn; lia]. Defined.

(** ** Saving the result *)

Lemma py_split_nonempty sep s : py_split sep s ≠ [].
Proof.
  destruct s as [|c s]; [done|]. cbn -[Ascii.eqb].
  destruct (Ascii.eqb c sep); [done|]. by destruct (py_split sep s).
Qed.

(** The first piece of a split is the text before the first separator. *)
Lemma py_split_head sep (stem : list ascii) (rest : string) :
  sep ∉ stem →
  head (py_split sep
          (String.string_of_list_ascii stem +:+ String sep rest))
  = Some (String.string_of_list_ascii stem).
Proof.
  induction stem as [|c stem IH]; intros Hsep.
  - change (head (py_split sep (String sep rest)) = Some EmptyString).
    cbn [py_split]. by rewrite Ascii.eqb_refl.
  - apply not_elem_of_cons in Hsep as [Hc Hsep]. specialize (IH Hsep).
    change (head (py_split sep
                    (String c (String.string_of_list_ascii stem
                               +:+ String sep rest)))
            = Some (String c (String.string_of_list_ascii stem))).
    cbn [py_split].
    destruct (Ascii.eqb_spec c sep) as [?|_]; [done|].
    destruct (py_split sep _) as [|w ws]; [done|].
    cbn in *. congruence.
Qed.

Section SavingFacts.
Context {F E : Type}.
Variable to_csv : list (string * list float) → string → F → (E + ()) * F.

(** X14 ([save_points_to_csv], lines 112-127).  With fewer than two
    column labels [columns[0]] or [columns[1]] raises [IndexError] inside
    [try]; the bare [except] turns it into the result 0: nothing is
    raised, the message is printed, and the writer is not reached, so
    the file system stays as it was. *)
Theorem save_points_to_csv_few_labels points filename columns fs stdout :
  length columns < 2 →
  save_points_to_csv to_csv points filename columns fs stdout
  = (0%Z, (fs, stdout ++ [error_message])).
Proof.
  intros Hlen. unfold save_points_to_csv.
  destruct (getitem (py_split "." filename) 0) as [stem| |]; [|done..].
  cbn [bind].
  destruct columns as [|label_1 [|label_2 columns]]; [done..|].
  cbn in Hlen. lia.
Qed.

(** X15 ([save_points_to_csv], lines 112-127).  The path written is
    ['simplified/' + stem + '(simplified).csv'], where [stem] is the text
    of [filename] before its first dot: what follows the first dot plays
    no part, so two file names that differ only there are saved to the
    same path, with the same outcome. *)
Theorem save_points_to_csv_stem points (stem : list ascii)
    (rest rest' : string) columns fs stdout :
  "."%char ∉ stem →
  save_points_to_csv to_csv points
    (String.string_of_list_ascii stem +:+ String "." rest) columns fs stdout
  = save_points_to_csv to_csv points
      (String.string_of_list_ascii stem +:+ String "." rest') columns fs stdout
  ∧ (∀ label_1 label_2 labels, columns = label_1 :: label_2 :: labels →
     save_points_to_csv to_csv points
       (String.string_of_list_ascii stem +:+ String "." rest) columns fs stdout
     = match
         to_csv (py_dict2 label_1 (fst <$> points) label_2 (snd <$> points))
           ("simplified/" +:+ String.string_of_list_ascii stem
            +:+ "(simplified).csv") fs
       with
       | (inr _, fs') => (1%Z, (fs', stdout))
       | (inl _, fs') => (0%Z, (fs', stdout ++ [error_message]))
       end).
Proof.
  intros Hstem. unfold save_points_to_csv.
  rewrite (getitem_head _ _ (py_split_head "." stem rest Hstem)).
  rewrite (getitem_head _ _ (py_split_head "." stem rest' Hstem)).
  split; [done|]. by intros label_1 label_2 labels ->.
Qed.
End SavingFacts.

Lemma save_points_to_csv_few_labels_witness :
  save_points_to_csv (F:=list string) (E:=())
    (λ df path fs, (inr (), path :: fs))
    [(0, 1)]%float "a.csv" ["Date"] [] []
  = (0%Z, ([], [error_message])).
Proof. apply save_points_to_csv_few_labels. cbn. lia. Defined.

Lemma save_points_to_csv_stem_witness :
  save_points_to_csv (F:=list string) (E:=())
    (λ df path fs, (inr (), path :: fs))
    [(0, 1)]%float "sales.2019.csv" ["Date"; "Sales"] [] []
  = save_points_to_csv (F:=list string) (E:=())
      (λ df path fs, (inr (), path :: fs))
      [(0, 1)]%float "sales.csv" ["Date"; "Sales"] [] [].
Proof.
  apply (save_points_to_csv_stem _ _ (String.list_ascii_of_string "sales")
           "2019.csv" "csv").
  intros Hin. by repeat (apply elem_of_cons in Hin as [?|Hin]; [done|]);
    apply elem_of_nil in Hin.
Defined.

(** ** The verdict on an undefined test *)

(** X16 (the script, lines 230-234).  A NaN t-statistic or a NaN p-value
    fails its comparison, as every comparison with a NaN does, so the
    script then reports a significant difference, whatever the other
    number is. *)
Theorem comparison_result_nan (t_statistic p_value : float) :
  is_nan t_statistic = true ∨ is_nan p_value = true →
  comparison_result t_statistic p_value = significant_difference.
Proof.
  unfold comparison_result.
  intros [Hnan|Hnan]; apply is_nan_Prim2SF in Hnan.
  - replace (abs t_statistic <? tol)%float with false; [done|].
    by rewrite FloatAxioms.ltb_spec, abs_spec, Hnan.
  - replace (0.05 <? p_value)%float with false;
      [by rewrite andb_false_r|].
    rewrite FloatAxioms.ltb_spec, Hnan.
    by destruct (Prim2SF 0.05) as [[]|[]| |[] m e].
Qed.

Lemma comparison_result_nan_witness :
  comparison_result 0%float nan = significant_difference.
Proof. apply comparison_result_nan. by right. Defined.
